(** * SpoofDPI: the HTTPS handler and the configuration loader

    A shallow embedding of [proxy/handler/https.go] (package [handler]) and of
    the argument and configuration files of package [util], followed by the
    properties of the chunker, of the handler configuration, of the tunnel
    ([Serve], [writeChunks], [randomDelay], [communicate]) and of
    [Config.Load].

    Conventions.  A Go [int] or [uint16] is a [Z]; the wrap-around of
    [uint16] arithmetic is written out with [u16].  A [[]byte] is a
    [list byte]; [len s] is the Go length, [s[:hi]] is [slice_to s hi] and
    [s[lo:]] is [slice_from s lo].  Operations on sockets, the logger, the
    random source and the clock are recorded as a trace of events; what the
    outside world answers is read from an environment record. *)

From Equations Require Import Equations.
From Stdlib Require Import List ZArith Lia Bool String Ascii.
From Stdlib.Strings Require Import Byte.
Import ListNotations.
Local Open Scope Z_scope.

(** ** Go slices and integers *)

Definition len {A : Type} (s : list A) : Z := Z.of_nat (List.length s).

Definition slice_to {A : Type} (s : list A) (hi : Z) : list A :=
  firstn (Z.to_nat hi) s.

Definition slice_from {A : Type} (s : list A) (lo : Z) : list A :=
  skipn (Z.to_nat lo) s.

Definition is_uint16 (x : Z) : Prop := 0 <= x < 65536.

Definition u16 (x : Z) : Z := x mod 65536.

Definition maxInt64 : Z := 9223372036854775807.
Definition minInt64 : Z := -9223372036854775808.

Definition error : Type := string.

(** ** [strconv.Atoi]

    The Go library function, for the 64-bit [int]: an optional sign, then
    one or more decimal digits.  A malformed number gives [0] and a syntax
    error; a number outside the [int] range gives the nearest bound and a
    range error. *)

Definition ErrSyntax : error := "invalid syntax"%string.
Definition ErrRange : error := "value out of range"%string.

Definition digit_of (ch : ascii) : option Z :=
  let n := Z.of_nat (nat_of_ascii ch) in
  if (48 <=? n) && (n <=? 57) then Some (n - 48) else None.

Fixpoint parse_digits (s : string) (n : Z) : option Z :=
  match s with
  | EmptyString => Some n
  | String ch s' =>
      match digit_of ch with
      | Some d => parse_digits s' (n * 10 + d)
      | None => None
      end
  end.

Definition Atoi (s : string) : Z * option error :=
  match s with
  | EmptyString => (0, Some ErrSyntax)
  | String s0 rest =>
      let neg := Ascii.eqb s0 "-"%char in
      let digits := if neg || Ascii.eqb s0 "+"%char then rest else s in
      match digits with
      | EmptyString => (0, Some ErrSyntax)
      | _ =>
          match parse_digits digits 0 with
          | None => (0, Some ErrSyntax)
          | Some n =>
              let v := if neg then - n else n in
              if maxInt64 <? v then (maxInt64, Some ErrRange)
              else if v <? minInt64 then (minInt64, Some ErrRange)
              else (v, None)
          end
      end
  end.

(** ** Package [handler]: [proxy/handler/https.go] *)

Module Handler.

(** *** The chunker: [splitInChunks] *)

(** The loop of the branch [size > 0].  [raw] and [size] are the two
    variables the loop assigns; [chunks] is the slice it appends to.  The
    loop is entered under [size > 0], and [size] stays positive because it
    is only ever replaced by [len raw] when [len raw <> 0]; every iteration
    shortens [raw], which is what makes the loop end. *)
Equations? chunkLoop (raw : list byte) (size : Z) (pos : 0 < size)
    (chunks : list (list byte)) : list (list byte)
    by wf (List.length raw) lt :=
  chunkLoop raw size pos chunks with Z.eq_dec (len raw) 0 := {
    | left _ := chunks
    | right ne with Z_lt_dec (len raw) size := {
      | left _ :=
          chunkLoop (slice_from raw (len raw)) (len raw) _
                    (chunks ++ [slice_to raw (len raw)])
      | right _ :=
          chunkLoop (slice_from raw size) size pos
                    (chunks ++ [slice_to raw size]) } }.
Proof.
  all: unfold len, slice_from in *; try rewrite length_skipn; lia.
Qed.

(** [splitInChunks(ctx, bytes, size)]; the two debug lines it logs are
    [splitInChunks_logs] further down. *)
Definition splitInChunks (bytes : list byte) (size : Z) : list (list byte) :=
  match Z_lt_dec 0 size with
  | left pos => chunkLoop bytes size pos []
  | right _ =>
      if len bytes <? 1 then [bytes]
      else [slice_to bytes 1; slice_from bytes 1]
  end.

(** *** The configuration and the constructor *)

Section WithRegexp.

(** [regexp.Regexp] is a type of the Go library; the handler only stores
    patterns, so the type is left open. *)
Variable Regexp : Type.

Record HttpsHandlerConfig : Type := {
  Timeout : Z;
  WindowSize : Z;
  AllowedPatterns : list Regexp;
  Exploit : bool;
  TimingRandomization : bool;
  TimingDelayMin : Z;
  TimingDelayMax : Z
}.

Definition DefaultHttpsHandlerConfig : HttpsHandlerConfig := {|
  Timeout := 0;
  WindowSize := 0;
  AllowedPatterns := [];
  Exploit := true;
  TimingRandomization := false;
  TimingDelayMin := 5;
  TimingDelayMax := 50
|}.

Definition Validate (c : HttpsHandlerConfig) : option error :=
  if Timeout c <? 0 then Some "timeout cannot be negative"%string
  else if WindowSize c <? 0 then Some "window size cannot be negative"%string
  else if TimingRandomization c && (TimingDelayMax c <? TimingDelayMin c)
       then Some "timing delay min cannot be greater than max"%string
  else None.

Record HttpsHandler : Type := {
  bufferSize : Z;
  protocol : string;
  port : Z;
  config : HttpsHandlerConfig
}.

(** A functional option is a function that updates the configuration it is
    given a pointer to. *)
Definition HttpsHandlerOption : Type := HttpsHandlerConfig -> HttpsHandlerConfig.

Definition WithTimeout (timeout : Z) : HttpsHandlerOption := fun c =>
  {| Timeout := timeout; WindowSize := WindowSize c;
     AllowedPatterns := AllowedPatterns c; Exploit := Exploit c;
     TimingRandomization := TimingRandomization c;
     TimingDelayMin := TimingDelayMin c; TimingDelayMax := TimingDelayMax c |}.

Definition WithWindowSize (size : Z) : HttpsHandlerOption := fun c =>
  {| Timeout := Timeout c; WindowSize := size;
     AllowedPatterns := AllowedPatterns c; Exploit := Exploit c;
     TimingRandomization := TimingRandomization c;
     TimingDelayMin := TimingDelayMin c; TimingDelayMax := TimingDelayMax c |}.

Definition WithAllowedPatterns (patterns : list Regexp) : HttpsHandlerOption :=
  fun c =>
  {| Timeout := Timeout c; WindowSize := WindowSize c;
     AllowedPatterns := patterns; Exploit := Exploit c;
     TimingRandomization := TimingRandomization c;
     TimingDelayMin := TimingDelayMin c; TimingDelayMax := TimingDelayMax c |}.

Definition WithExploit (exploit : bool) : HttpsHandlerOption := fun c =>
  {| Timeout := Timeout c; WindowSize := WindowSize c;
     AllowedPatterns := AllowedPatterns c; Exploit := exploit;
     TimingRandomization := TimingRandomization c;
     TimingDelayMin := TimingDelayMin c; TimingDelayMax := TimingDelayMax c |}.

Definition WithTimingRandomization (min max : Z) : HttpsHandlerOption :=
  fun c =>
  {| Timeout := Timeout c; WindowSize := WindowSize c;
     AllowedPatterns := AllowedPatterns c; Exploit := Exploit c;
     TimingRandomization := true;
     TimingDelayMin := min; TimingDelayMax := max |}.

Definition WithoutTimingRandomization : HttpsHandlerOption := fun c =>
  {| Timeout := Timeout c; WindowSize := WindowSize c;
     AllowedPatterns := AllowedPatterns c; Exploit := Exploit c;
     TimingRandomization := false;
     TimingDelayMin := TimingDelayMin c; TimingDelayMax := TimingDelayMax c |}.

(** The loop [for _, opt := range opts { opt(&config) }]. *)
Definition applyOptions (opts : list HttpsHandlerOption)
    (c : HttpsHandlerConfig) : HttpsHandlerConfig :=
  fold_left (fun cfg opt => opt cfg) opts c.

Definition NewHttpsHandler (opts : list HttpsHandlerOption) : HttpsHandler :=
  let config0 := applyOptions opts DefaultHttpsHandlerConfig in
  let config1 :=
    match Validate config0 with
    | Some _ => DefaultHttpsHandlerConfig
    | None => config0
    end in
  {| bufferSize := 1024; protocol := "HTTPS"%string; port := 443; config := config1 |}.

End WithRegexp.

Arguments Timeout {Regexp}.
Arguments WindowSize {Regexp}.
Arguments AllowedPatterns {Regexp}.
Arguments Exploit {Regexp}.
Arguments TimingRandomization {Regexp}.
Arguments TimingDelayMin {Regexp}.
Arguments TimingDelayMax {Regexp}.
Arguments bufferSize {Regexp}.
Arguments protocol {Regexp}.
Arguments port {Regexp}.
Arguments config {Regexp}.
Arguments Validate {Regexp}.
Arguments NewHttpsHandler {Regexp}.
Arguments applyOptions {Regexp}.
Arguments WithAllowedPatterns {Regexp}.
Arguments DefaultHttpsHandlerConfig {Regexp}.
Arguments WithoutTimingRandomization {Regexp}.
Arguments WithTimeout {Regexp}.
Arguments WithWindowSize {Regexp}.
Arguments WithExploit {Regexp}.
Arguments WithTimingRandomization {Regexp}.

(** *** The outside world of one goroutine

    The handler talks to two sockets, the logger, the random source and the
    clock.  Each such operation is an event of the goroutine's trace, in
    program order. *)

Inductive conn : Type :=
| lConn   (* the client socket *)
| rConn.  (* the upstream socket *)

Definition conn_eqb (a b : conn) : bool :=
  match a, b with
  | lConn, lConn | rConn, rConn => true
  | _, _ => false
  end.

(** The debug lines, one constructor per format string. *)
Inductive logmsg : Type :=
| LogParsePort (domain : string)        (* error parsing port for %s aborting.. *)
| LogDialError (err : error)            (* %s *)
| LogNewConnection (domain : string)    (* new connection to the server .. *)
| Log200Error (err : error)             (* error sending 200 connection established .. *)
| LogSent200                            (* sent connection established to .. *)
| LogHelloError (err : option error)    (* error reading client hello from .. *)
| LogHelloLen (n : Z)                   (* client sent hello %d bytes *)
| LogWritingChunked (domain : string)   (* writing chunked client hello to %s *)
| LogChunkedError (domain : string) (err : error)
| LogWritingPlain (domain : string)     (* writing plain client hello to %s *)
| LogPlainError (domain : string) (err : error)
| LogWindowSize (size : Z)              (* window-size: %d *)
| LogLegacy                             (* using legacy fragmentation *)
| LogDeadlineError (err : error)        (* error while setting connection deadline .. *)
| LogReadError (err : error)            (* error reading from %s: %s *)
| LogWriteError                         (* error writing to %s *)
| LogClosing.                           (* closing proxy connection: %s -> %s *)

Inductive event : Type :=
| EvLog (m : logmsg)
| EvDial (ip : string) (port : Z)          (* net.DialTCP *)
| EvClose (c : conn)                       (* c.Close() *)
| EvWrite (c : conn) (data : list byte)    (* c.Write(data) *)
| EvReadTLS (c : conn)                     (* packet.ReadTLSMessage(c) *)
| EvGo (from to : conn)                    (* go h.communicate(ctx, from, to, ..) *)
| EvRand (n : Z)                           (* rand.Intn(n) *)
| EvSleep (ms : Z)                         (* time.Sleep(ms * time.Millisecond) *)
| EvSetTimeout (c : conn) (ms : Z)         (* setConnectionTimeout(c, ms) *)
| EvRead (c : conn).                       (* ReadBytes(ctx, c, buf) *)

(** What [packet.ReadTLSMessage] hands back: the raw record and the answer
    of [IsClientHello]. *)
Record TLSMessage : Type := {
  Raw : list byte;
  IsClientHello : bool
}.

(** The three accessors of [packet.HttpRequest] that [Serve] calls. *)
Record HttpRequest : Type := {
  Domain : string;
  Port : string;
  Version : string
}.

(** The answers of the outside world to one goroutine: the [k]-th call of an
    operation gets the [k]-th answer. *)
Record World : Type := {
  dial_result : option error;
  write_result : nat -> option error;
  tls_result : TLSMessage + error;
  rand_source : nat -> Z;
  deadline_result : nat -> option error;
  read_result : nat -> list byte * option error
}.

Section Tunnel.

Variable Regexp : Type.
Variable env : World.

(** The state a goroutine threads through its calls: the handler object
    behind the pointer [h] (of which [Serve] assigns the field [port]), and
    how many answers of each kind were consumed. *)
Record St : Type := {
  hdl : HttpsHandler Regexp;
  n_write : nat;
  n_rand : nat;
  n_deadline : nat;
  n_read : nat
}.

Definition M (A : Type) : Type := St -> A * St * list event.

Definition ret {A : Type} (a : A) : M A := fun s => (a, s, []).

Definition bind {A B : Type} (m : M A) (k : A -> M B) : M B := fun s =>
  let '(a, s1, t1) := m s in
  let '(b, s2, t2) := k a s1 in
  (b, s2, t1 ++ t2).

Notation "x <- c1 ;; c2" := (bind c1 (fun x => c2))
  (at level 61, c1 at next level, right associativity).
Notation "c1 ;; c2" := (bind c1 (fun _ => c2))
  (at level 61, right associativity).

Definition emit (e : event) : M unit := fun s => (tt, s, [e]).

Definition log (m : logmsg) : M unit := emit (EvLog m).

Definition get_config : M (HttpsHandlerConfig Regexp) :=
  fun s => (config (hdl s), s, []).

Definition get_port : M Z := fun s => (port (hdl s), s, []).

Definition set_port (p : Z) : M unit := fun s =>
  (tt,
   {| hdl := {| bufferSize := bufferSize (hdl s); protocol := protocol (hdl s);
                port := p; config := config (hdl s) |};
      n_write := n_write s; n_rand := n_rand s;
      n_deadline := n_deadline s; n_read := n_read s |},
   []).

Definition DialTCP (ip : string) (p : Z) : M (option error) := fun s =>
  (dial_result env, s, [EvDial ip p]).

Definition Close (c : conn) : M unit := emit (EvClose c).

(** [c.Write(data)]: the number of bytes written and the error. *)
Definition Write (c : conn) (data : list byte) : M (Z * option error) :=
  fun s =>
  let err := write_result env (n_write s) in
  ((match err with None => len data | Some _ => 0 end, err),
   {| hdl := hdl s; n_write := S (n_write s); n_rand := n_rand s;
      n_deadline := n_deadline s; n_read := n_read s |},
   [EvWrite c data]).

Definition ReadTLSMessage (c : conn) : M (TLSMessage + error) := fun s =>
  (tls_result env, s, [EvReadTLS c]).

Definition Go (from to : conn) : M unit := emit (EvGo from to).

(** [rand.Intn(n)], for [n > 0]: a number in [[0, n)]. *)
Definition Intn (n : Z) : M Z := fun s =>
  (rand_source env (n_rand s) mod n,
   {| hdl := hdl s; n_write := n_write s; n_rand := S (n_rand s);
      n_deadline := n_deadline s; n_read := n_read s |},
   [EvRand n]).

Definition Sleep (ms : Z) : M unit := emit (EvSleep ms).

Definition setConnectionTimeout (c : conn) (ms : Z) : M (option error) :=
  fun s =>
  (deadline_result env (n_deadline s),
   {| hdl := hdl s; n_write := n_write s; n_rand := n_rand s;
      n_deadline := S (n_deadline s); n_read := n_read s |},
   [EvSetTimeout c ms]).

Definition ReadBytes (c : conn) : M (list byte * option error) := fun s =>
  (read_result env (n_read s),
   {| hdl := hdl s; n_write := n_write s; n_rand := n_rand s;
      n_deadline := n_deadline s; n_read := S (n_read s) |},
   [EvRead c]).

(** *** [randomDelay] *)

Definition randomDelay : M unit :=
  cfg <- get_config ;;
  if negb (TimingRandomization cfg) then ret tt
  else if TimingDelayMax cfg <=? TimingDelayMin cfg then ret tt
  else
    let delayRange := u16 (TimingDelayMax cfg - TimingDelayMin cfg) in
    r <- Intn (delayRange + 1) ;;
    let delay := u16 (TimingDelayMin cfg + u16 r) in
    Sleep delay.

(** *** [writeChunks]

    The loop [for i := 0; i < len(c); i++], on the chunks from [c[i]] on. *)
Fixpoint writeChunks_from (conn : conn) (c : list (list byte)) (i total : Z)
    : M (Z * option error) :=
  match c with
  | [] => ret (total, None)
  | ci :: c' =>
      (if 0 <? i then randomDelay else ret tt) ;;
      w <- Write conn ci ;;
      match snd w with
      | Some err => ret (0, Some err)
      | None => writeChunks_from conn c' (i + 1) (total + fst w)
      end
  end.

Definition writeChunks (conn : conn) (c : list (list byte))
    : M (Z * option error) :=
  writeChunks_from conn c 0 0.

(** The debug lines of [splitInChunks]. *)
Definition splitInChunks_logs (bytes : list byte) (size : Z) : list logmsg :=
  LogWindowSize size ::
  (if (0 <? size) || (len bytes <? 1) then [] else [LogLegacy]).

Fixpoint logs (ms : list logmsg) : M unit :=
  match ms with
  | [] => ret tt
  | m :: ms' => log m ;; logs ms'
  end.

Definition crlf : string :=
  String (ascii_of_nat 13) (String (ascii_of_nat 10) EmptyString).

Definition established (version : string) : list byte :=
  list_byte_of_string
    (version ++ " 200 Connection Established" ++ crlf ++ crlf)%string.

(** *** [Serve] *)

Definition Serve (initPkt : HttpRequest) (ip : string) : M unit :=
  (if String.eqb (Port initPkt) EmptyString then ret tt
   else
     let '(p, err) := Atoi (Port initPkt) in
     set_port p ;;
     match err with
     | Some _ => log (LogParsePort (Domain initPkt))
     | None => ret tt
     end) ;;
  p <- get_port ;;
  derr <- DialTCP ip p ;;
  match derr with
  | Some err => Close lConn ;; log (LogDialError err)
  | None =>
      log (LogNewConnection (Domain initPkt)) ;;
      w <- Write lConn (established (Version initPkt)) ;;
      match snd w with
      | Some err => log (Log200Error err)
      | None =>
          log LogSent200 ;;
          m <- ReadTLSMessage lConn ;;
          match m with
          | inr err => log (LogHelloError (Some err))
          | inl m =>
              if negb (IsClientHello m) then log (LogHelloError None)
              else
                let clientHello := Raw m in
                log (LogHelloLen (len clientHello)) ;;
                Go rConn lConn ;;
                Go lConn rConn ;;
                cfg <- get_config ;;
                if Exploit cfg then
                  log (LogWritingChunked (Domain initPkt)) ;;
                  logs (splitInChunks_logs clientHello (WindowSize cfg)) ;;
                  let chunks := splitInChunks clientHello (WindowSize cfg) in
                  r <- writeChunks rConn chunks ;;
                  match snd r with
                  | Some err => log (LogChunkedError (Domain initPkt) err)
                  | None => ret tt
                  end
                else
                  log (LogWritingPlain (Domain initPkt)) ;;
                  w' <- Write rConn clientHello ;;
                  match snd w' with
                  | Some err => log (LogPlainError (Domain initPkt) err)
                  | None => ret tt
                  end
          end
      end
  end.

(** *** [communicate]

    The [for] loop, which only a read or write error leaves: [fuel] bounds
    the number of iterations looked at, and the result says whether the loop
    was left ([true]) or is still running ([false]). *)
Fixpoint communicate_loop (fuel : nat) (from to : conn) : M bool :=
  match fuel with
  | O => ret false
  | S fuel' =>
      cfg <- get_config ;;
      derr <- setConnectionTimeout from (Timeout cfg) ;;
      (match derr with
       | Some err => log (LogDeadlineError err)
       | None => ret tt
       end) ;;
      r <- ReadBytes from ;;
      match snd r with
      | Some err => log (LogReadError err) ;; ret true
      | None =>
          w <- Write to (fst r) ;;
          match snd w with
          | Some _ => log LogWriteError ;; ret true
          | None => communicate_loop fuel' from to
          end
      end
  end.

(** The whole function: when the loop is left, the deferred function closes
    both sockets and logs. *)
Definition communicate (fuel : nat) (from to : conn) : M bool :=
  returned <- communicate_loop fuel from to ;;
  if returned then Close from ;; Close to ;; log LogClosing ;; ret true
  else ret false.

End Tunnel.

(** A goroutine starts with no answer consumed. *)
Definition start {Regexp : Type} (h : HttpsHandler Regexp) : St Regexp :=
  {| hdl := h; n_write := 0; n_rand := 0; n_deadline := 0; n_read := 0 |}.

Definition trace_of {S A : Type} (r : A * S * list event) : list event := snd r.
Definition state_of {S A : Type} (r : A * S * list event) : S := snd (fst r).
Definition value_of {S A : Type} (r : A * S * list event) : A := fst (fst r).

Arguments ret {Regexp A}.
Arguments bind {Regexp A B}.
Arguments emit {Regexp}.
Arguments log {Regexp}.
Arguments logs {Regexp}.
Arguments get_config {Regexp}.
Arguments get_port {Regexp}.
Arguments set_port {Regexp}.
Arguments DialTCP {Regexp}.
Arguments Close {Regexp}.
Arguments Write {Regexp}.
Arguments ReadTLSMessage {Regexp}.
Arguments Go {Regexp}.
Arguments Intn {Regexp}.
Arguments Sleep {Regexp}.
Arguments setConnectionTimeout {Regexp}.
Arguments ReadBytes {Regexp}.
Arguments randomDelay {Regexp}.
Arguments writeChunks_from {Regexp}.
Arguments writeChunks {Regexp}.
Arguments Serve {Regexp}.
Arguments communicate_loop {Regexp}.
Arguments communicate {Regexp}.
Arguments hdl {Regexp}.
Arguments n_write {Regexp}.
Arguments n_rand {Regexp}.
Arguments n_deadline {Regexp}.
Arguments n_read {Regexp}.

(** *** Reading a trace *)

(** The payloads of the writes to socket [c], in order. *)
Fixpoint writes_to (c : conn) (t : list event) : list (list byte) :=
  match t with
  | [] => []
  | EvWrite c' data :: t' =>
      if conn_eqb c c' then data :: writes_to c t' else writes_to c t'
  | _ :: t' => writes_to c t'
  end.

Definition is_write_to (c : conn) (e : event) : bool :=
  match e with
  | EvWrite c' _ => conn_eqb c c'
  | _ => false
  end.


Definition is_go (from to : conn) (e : event) : bool :=
  match e with
  | EvGo f t => conn_eqb from f && conn_eqb to t
  | _ => false
  end.

Definition is_sleep (e : event) : bool :=
  match e with
  | EvSleep _ => true
  | _ => false
  end.

Definition is_dial (e : event) : bool :=
  match e with
  | EvDial _ _ => true
  | _ => false
  end.

Definition is_close (c : conn) (e : event) : bool :=
  match e with
  | EvClose c' => conn_eqb c c'
  | _ => false
  end.



(** In [t], between any two consecutive writes to [c] there is a sleep of
    [lo] to [hi] milliseconds. *)
Definition sleeps_between_writes (c : conn) (lo hi : Z) (t : list event)
    : Prop :=
  forall before c1 mid c2 after,
    t = before ++ EvWrite c c1 :: mid ++ EvWrite c c2 :: after ->
    (forall e, In e mid -> is_write_to c e = false) ->
    exists d, In (EvSleep d) mid /\ lo <= d <= hi.

(** The trace of [n] chunk writes to [c] with the sleeps [ds] in between:
    one call of [rand.Intn(k)] and one sleep before every chunk but the
    first. *)
Fixpoint weave_rest (c : conn) (k : Z) (ds : list Z) (cs : list (list byte))
    : list event :=
  match ds, cs with
  | d :: ds', ci :: cs' =>
      EvRand k :: EvSleep d :: EvWrite c ci :: weave_rest c k ds' cs'
  | _, _ => []
  end.

Definition weave (c : conn) (k : Z) (ds : list Z) (cs : list (list byte))
    : list event :=
  match cs with
  | [] => []
  | c0 :: cs' => EvWrite c c0 :: weave_rest c k ds cs'
  end.

(** *** Sockets

    [Close] on an open [net.TCPConn] closes its descriptor; on a closed one
    it returns an error and does nothing.  [fd_closes c true t] counts the
    calls in [t] that close the descriptor of [c], [c] being open at the
    start; [close_calls c t] counts all the calls. *)
Fixpoint fd_closes (c : conn) (open : bool) (t : list event) : nat :=
  match t with
  | [] => 0
  | e :: t' =>
      if is_close c e
      then (if open then S (fd_closes c false t') else fd_closes c false t')
      else fd_closes c open t'
  end.

Fixpoint is_open (c : conn) (open : bool) (t : list event) : bool :=
  match t with
  | [] => open
  | e :: t' => if is_close c e then is_open c false t' else is_open c open t'
  end.

Definition close_calls (c : conn) (t : list event) : nat :=
  List.length (filter (is_close c) t).

(** *** Goroutines

    [merge sched t1 t2] runs two goroutines side by side: the scheduler
    picks the first one at [true] and the second at [false], and when one
    has finished or the schedule is used up the rest runs undisturbed. *)
Fixpoint merge {A : Type} (sched : list bool) (t1 t2 : list A) : list A :=
  match sched with
  | [] => t1 ++ t2
  | b :: sched' =>
      match t1, t2 with
      | [], _ => t2
      | _, [] => t1
      | x :: t1', y :: t2' =>
          if b then x :: merge sched' t1' t2 else y :: merge sched' t1 t2'
      end
  end.

(** Every way of interleaving two traces. *)
Inductive interleaving {A : Type} : list A -> list A -> list A -> Prop :=
| il_nil : interleaving [] [] []
| il_left x t1 t2 t : interleaving t1 t2 t -> interleaving (x :: t1) t2 (x :: t)
| il_right y t1 t2 t : interleaving t1 t2 t -> interleaving t1 (y :: t2) (y :: t).

(** *** More on reading a trace *)

Definition is_rand (e : event) : bool :=
  match e with
  | EvRand _ => true
  | _ => false
  end.

Definition is_read_tls (e : event) : bool :=
  match e with
  | EvReadTLS _ => true
  | _ => false
  end.

(** The calls of [setConnectionTimeout] and of [ReadBytes]. *)
Definition is_deadline_or_read (e : event) : bool :=
  match e with
  | EvSetTimeout _ _ | EvRead _ => true
  | _ => false
  end.

(** Any operation on a socket. *)
Definition is_socket_op (e : event) : bool :=
  match e with
  | EvClose _ | EvWrite _ _ | EvReadTLS _ | EvSetTimeout _ _ | EvRead _ => true
  | _ => false
  end.

Definition count (p : event -> bool) (t : list event) : nat :=
  List.length (filter p t).

Definition is_err {A : Type} (e : option A) : bool :=
  match e with
  | Some _ => true
  | None => false
  end.

End Handler.

(** ** Package [util]: the arguments and the configuration *)

Module Util.

Record TimingFlag : Type := {
  Value : string;
  IsSet : bool
}.

Record Args : Type := {
  arg_Addr : string;
  arg_Port : Z;
  arg_DnsAddr : string;
  arg_DnsPort : Z;
  arg_DnsIPv4Only : bool;
  arg_EnableDoh : bool;
  arg_Debug : bool;
  arg_Silent : bool;
  arg_SystemProxy : bool;
  arg_Timeout : Z;
  arg_AllowedPattern : list string;
  arg_WindowSize : Z;
  arg_Version : bool;
  arg_RandomTiming : TimingFlag
}.

(** [StringArray.Set]: the new content of the array and the error
    returned, which is always nil. *)
Definition StringArray_Set (arr : list string) (value : string)
    : list string * option error :=
  (arr ++ [value], None).

(** The loop that ends [ParseArgs], which looks for a [random-timing] flag
    given without a value.  [rest] is [os.Args] from index [i] on, so
    [os.Args[i+1]] is the head of what follows [arg], and there is none
    exactly when [i+1 >= len(os.Args)]; [flag] is [args.RandomTiming]. *)
Fixpoint ParseArgs_randomTiming (rest : list string) (flag : TimingFlag)
    : TimingFlag :=
  match rest with
  | [] => flag
  | arg :: rest' =>
      if String.eqb arg "--random-timing" || String.eqb arg "-random-timing"
      then
        match rest' with
        | [] => {| Value := "short"; IsSet := true |}
        | next :: _ =>
            if String.prefix "-" next
            then {| Value := "short"; IsSet := true |}
            else flag
        end
      else ParseArgs_randomTiming rest' flag
  end.

Section WithRegexp.

Variable Regexp : Type.

(** [regexp.Compile]: the compiled pattern, or nothing for a pattern that
    does not parse; [regexp.MustCompile] panics on the latter. *)
Variable Compile : string -> option Regexp.

Record Config : Type := {
  Addr : string;
  Port : Z;
  DnsAddr : string;
  DnsPort : Z;
  DnsIPv4Only : bool;
  EnableDoh : bool;
  Debug : bool;
  Silent : bool;
  SystemProxy : bool;
  Timeout : Z;
  WindowSize : Z;
  AllowedPatterns : list Regexp;
  TimingRandomization : bool;
  TimingDelayMin : Z;
  TimingDelayMax : Z
}.

(** The loop of [parseAllowedPattern], on the patterns left; [None] is the
    panic of [regexp.MustCompile]. *)
Fixpoint parseAllowedPattern_from (patterns : list string)
    (allowedPatterns : list Regexp) : option (list Regexp) :=
  match patterns with
  | [] => Some allowedPatterns
  | pattern :: patterns' =>
      match Compile pattern with
      | None => None
      | Some re => parseAllowedPattern_from patterns' (allowedPatterns ++ [re])
      end
  end.

Definition parseAllowedPattern (patterns : list string) : option (list Regexp) :=
  parseAllowedPattern_from patterns [].

(** The timing block of [Load]: the three fields it assigns. *)
Definition loadTiming (flag : TimingFlag) : bool * Z * Z :=
  if IsSet flag then
    let preset := Value flag in
    let preset := if String.eqb preset EmptyString then "short"%string else preset in
    if String.eqb preset "short" then (true, 5, 25)
    else if String.eqb preset "medium" then (true, 25, 50)
    else if String.eqb preset "long" then (true, 50, 100)
    else (true, 5, 25)
  else (false, 0, 0).

(** [c.Load(args)] assigns the fields of the object behind [c] one after
    the other.  The result is that object after the call, and whether the
    call returned ([true]) or panicked in [parseAllowedPattern] ([false]):
    in the latter case the fields from [AllowedPatterns] on keep the values
    they had. *)
Definition Load (c : Config) (args : Args) : Config * bool :=
  match parseAllowedPattern (arg_AllowedPattern args) with
  | None =>
      ({| Addr := arg_Addr args; Port := arg_Port args;
          DnsAddr := arg_DnsAddr args; DnsPort := arg_DnsPort args;
          DnsIPv4Only := arg_DnsIPv4Only args; EnableDoh := arg_EnableDoh args;
          Debug := arg_Debug args; Silent := arg_Silent args;
          SystemProxy := arg_SystemProxy args; Timeout := arg_Timeout args;
          WindowSize := WindowSize c; AllowedPatterns := AllowedPatterns c;
          TimingRandomization := TimingRandomization c;
          TimingDelayMin := TimingDelayMin c;
          TimingDelayMax := TimingDelayMax c |}, false)
  | Some patterns =>
      let '(enabled, lo, hi) := loadTiming (arg_RandomTiming args) in
      ({| Addr := arg_Addr args; Port := arg_Port args;
          DnsAddr := arg_DnsAddr args; DnsPort := arg_DnsPort args;
          DnsIPv4Only := arg_DnsIPv4Only args; EnableDoh := arg_EnableDoh args;
          Debug := arg_Debug args; Silent := arg_Silent args;
          SystemProxy := arg_SystemProxy args; Timeout := arg_Timeout args;
          WindowSize := arg_WindowSize args; AllowedPatterns := patterns;
          TimingRandomization := enabled;
          TimingDelayMin := lo;
          TimingDelayMax := hi |}, true)
  end.

End WithRegexp.

Arguments TimingRandomization {Regexp}.
Arguments TimingDelayMin {Regexp}.
Arguments TimingDelayMax {Regexp}.
Arguments AllowedPatterns {Regexp}.
Arguments Load {Regexp}.
Arguments parseAllowedPattern {Regexp}.
Arguments parseAllowedPattern_from {Regexp}.

End Util.

(** ** Derived quantities and sample inputs *)

Module Samples.

(** How many chunks [writeChunks] hands to [Write] when the answers to its
    writes start at number [j]: all of them, or those up to the first write
    that fails. *)
Fixpoint attempts (w : nat -> option error) (j : nat) (c : list (list byte))
    : nat :=
  match c with
  | [] => 0
  | _ :: c' =>
      match w j with
      | Some _ => 1
      | None => S (attempts w (S j) c')
      end
  end.

(** The delays of [n] calls of [randomDelay] from draw number [j] on, for
    the bounds [lo < hi]. *)
Definition delays (env : Handler.World) (lo hi : Z) (j n : nat) : list Z :=
  map (fun i => lo + Handler.rand_source env i mod (hi - lo + 1)) (seq j n).

(** A pattern engine for patterns without metacharacters except the parentheses:
    such a pattern compiles when its parentheses are balanced. *)
Fixpoint balanced (depth : nat) (s : string) : bool :=
  match s with
  | EmptyString => Nat.eqb depth 0
  | String ch s' =>
      if Ascii.eqb ch "("%char then balanced (S depth) s'
      else if Ascii.eqb ch ")"%char
           then match depth with O => false | S d => balanced d s' end
      else balanced depth s'
  end.

Definition compile_literal (s : string) : option string :=
  if balanced 0 s then Some s else None.

Definition sample_args (flag : Util.TimingFlag) : Util.Args := {|
  Util.arg_Addr := "127.0.0.1"; Util.arg_Port := 8080;
  Util.arg_DnsAddr := "8.8.8.8"; Util.arg_DnsPort := 53;
  Util.arg_DnsIPv4Only := false; Util.arg_EnableDoh := false;
  Util.arg_Debug := false; Util.arg_Silent := false;
  Util.arg_SystemProxy := true; Util.arg_Timeout := 0;
  Util.arg_AllowedPattern := ["example"%string];
  Util.arg_WindowSize := 0; Util.arg_Version := false;
  Util.arg_RandomTiming := flag
|}.

Definition sample_config : Util.Config string := {|
  Util.Addr := EmptyString; Util.Port := 0; Util.DnsAddr := EmptyString;
  Util.DnsPort := 0; Util.DnsIPv4Only := false; Util.EnableDoh := false;
  Util.Debug := false; Util.Silent := false; Util.SystemProxy := false;
  Util.Timeout := 0; Util.WindowSize := 0; Util.AllowedPatterns := [];
  Util.TimingRandomization := false;
  Util.TimingDelayMin := 7; Util.TimingDelayMax := 9
|}.


(** A world in which every operation succeeds and the client sends the
    record [hello]. *)
Definition calm (hello : list byte) (rands : nat -> Z) : Handler.World := {|
  Handler.dial_result := None;
  Handler.write_result := fun _ => None;
  Handler.tls_result := inl {| Handler.Raw := hello; Handler.IsClientHello := true |};
  Handler.rand_source := rands;
  Handler.deadline_result := fun _ => None;
  Handler.read_result := fun _ => ([], Some "EOF"%string)
|}.

Definition hello4 : list byte := [x16; x03; x01; x00]%byte.

Definition hello12 : list byte :=
  [x16; x03; x01; x00; x07; x01; x00; x00; x03; x03; x03; x00]%byte.

(** A world in which the dial is refused. *)
Definition refusing : Handler.World := {|
  Handler.dial_result := Some "connect: invalid argument"%string;
  Handler.write_result := fun _ => None;
  Handler.tls_result := inr "EOF"%string;
  Handler.rand_source := fun _ => 0;
  Handler.deadline_result := fun _ => None;
  Handler.read_result := fun _ => ([], Some "EOF"%string)
|}.

(** A world for a forwarder: reads succeed with one byte until read number
    [n], which fails. *)
Definition closing_after (n : nat) : Handler.World := {|
  Handler.dial_result := None;
  Handler.write_result := fun _ => None;
  Handler.tls_result := inr "EOF"%string;
  Handler.rand_source := fun _ => 0;
  Handler.deadline_result := fun _ => None;
  Handler.read_result := fun k =>
    if Nat.ltb k n then ([x17]%byte, None) else ([], Some "EOF"%string)
|}.

(** A world in which the write number [k] of the goroutine fails and every
    other operation succeeds. *)
Definition failing_write (hello : list byte) (k : nat) : Handler.World := {|
  Handler.dial_result := None;
  Handler.write_result := fun j =>
    if Nat.eqb j k then Some "broken pipe"%string else None;
  Handler.tls_result := inl {| Handler.Raw := hello; Handler.IsClientHello := true |};
  Handler.rand_source := fun _ => 0;
  Handler.deadline_result := fun _ => None;
  Handler.read_result := fun _ => ([x17]%byte, None)
|}.

(** A world for a forwarder whose reads return the payloads of [reads] and
    then fail, and whose deadlines cannot be set. *)
Definition feeding (reads : list (list byte)) : Handler.World := {|
  Handler.dial_result := None;
  Handler.write_result := fun _ => None;
  Handler.tls_result := inr "EOF"%string;
  Handler.rand_source := fun _ => 0;
  Handler.deadline_result := fun _ => Some "deadline"%string;
  Handler.read_result := fun k =>
    match nth_error reads k with
    | Some data => (data, None)
    | None => ([], Some "EOF"%string)
    end
|}.

(** Patterns without metacharacters: such a pattern matches the strings it
    occurs in. *)
Definition literal_match (pattern s : string) : bool :=
  match String.index 0 pattern s with
  | Some _ => true
  | None => false
  end.

Definition connect_to (domain port : string) : Handler.HttpRequest := {|
  Handler.Domain := domain;
  Handler.Port := port;
  Handler.Version := "HTTP/1.1"
|}.

Definition upstream_ip : string := "203.0.113.7".

(** A handler that evades for hosts matching [example] only. *)
Definition pattern_handler : Handler.HttpsHandler string :=
  Handler.NewHttpsHandler [Handler.WithAllowedPatterns ["example"%string]].

(** Windows of 4 bytes and a fixed delay of 10 ms. *)
Definition fixed_delay_handler : Handler.HttpsHandler string :=
  Handler.NewHttpsHandler
    [Handler.WithWindowSize 4; Handler.WithTimingRandomization 10 10].

(** Windows of 4 bytes and the short preset. *)
Definition short_delay_handler : Handler.HttpsHandler string :=
  Handler.NewHttpsHandler
    [Handler.WithWindowSize 4; Handler.WithTimingRandomization 5 25].

Definition plain_handler : Handler.HttpsHandler string :=
  Handler.NewHttpsHandler [].

End Samples.
Import Samples.

(** * Properties *)

Import Handler.

(** ** Slices *)

Lemma len_nonneg {A : Type} (s : list A) : 0 <= len s.
Proof. unfold len. lia. Qed.

Lemma len_nil_iff {A : Type} (s : list A) : len s = 0 <-> s = [].
Proof.
  unfold len. destruct s as [|a s]; simpl; split; intro H;
    try reflexivity; try discriminate; lia.
Qed.

Lemma len_app {A : Type} (s t : list A) : len (s ++ t) = len s + len t.
Proof. unfold len. rewrite length_app. lia. Qed.

Lemma slice_to_from {A : Type} (s : list A) (k : Z) :
  slice_to s k ++ slice_from s k = s.
Proof. apply firstn_skipn. Qed.

Lemma len_slice_to {A : Type} (s : list A) (k : Z) :
  0 <= k <= len s -> len (slice_to s k) = k.
Proof.
  unfold len, slice_to. intros H. rewrite length_firstn. lia.
Qed.

Lemma len_slice_from {A : Type} (s : list A) (k : Z) :
  0 <= k <= len s -> len (slice_from s k) = len s - k.
Proof.
  unfold len, slice_from. intros H. rewrite length_skipn. lia.
Qed.

Lemma slice_to_all {A : Type} (s : list A) : slice_to s (len s) = s.
Proof.
  unfold slice_to, len. rewrite Nat2Z.id. apply firstn_all.
Qed.

Lemma slice_from_all {A : Type} (s : list A) : slice_from s (len s) = [].
Proof.
  unfold slice_from, len. rewrite Nat2Z.id. apply skipn_all.
Qed.

(** ** [strconv.Atoi] *)

Example Atoi_samples :
  Atoi "443" = (443, None)
  /\ Atoi "+8443" = (8443, None)
  /\ Atoi "-1" = (-1, None)
  /\ Atoi "+" = (0, Some ErrSyntax)
  /\ Atoi "4 43" = (0, Some ErrSyntax)
  /\ Atoi "9223372036854775807" = (maxInt64, None)
  /\ Atoi "9223372036854775808" = (maxInt64, Some ErrRange)
  /\ Atoi "-9223372036854775809" = (minInt64, Some ErrRange).
Proof. repeat split. Qed.

(** ** The chunker *)

Example splitInChunks_4_of_10 :
  splitInChunks [x00;x01;x02;x03;x04;x05;x06;x07;x08;x09]%byte 4
  = [[x00;x01;x02;x03]; [x04;x05;x06;x07]; [x08;x09]]%byte.
Proof. reflexivity. Qed.

Example splitInChunks_legacy :
  splitInChunks [x16;x03;x01;x00]%byte 0 = [[x16]; [x03;x01;x00]]%byte.
Proof. reflexivity. Qed.

Example splitInChunks_wide :
  splitInChunks [x16;x03;x01]%byte 7 = [[x16;x03;x01]]%byte.
Proof. reflexivity. Qed.

Example splitInChunks_empty_pos : splitInChunks [] 3 = [].
Proof. reflexivity. Qed.

Example splitInChunks_empty_legacy : splitInChunks [] (-2) = [[]].
Proof. reflexivity. Qed.

(** The loop appends to [chunks] pieces whose concatenation is [raw]. *)
Lemma chunkLoop_concat raw size pos chunks :
  List.concat (chunkLoop raw size pos chunks) = List.concat chunks ++ raw.
Proof.
  funelim (chunkLoop raw size pos chunks).
  - rewrite (proj1 (len_nil_iff raw) e). now rewrite app_nil_r.
  - rewrite H, concat_app. simpl. rewrite app_nil_r, <- app_assoc.
    now rewrite slice_to_from.
  - rewrite H, concat_app. simpl. rewrite app_nil_r, <- app_assoc.
    now rewrite slice_to_from.
Qed.

(** C1. For every buffer [buf] and every window size [w], positive or not,
    the chunks of [splitInChunks buf w] concatenated in order are [buf]:
    no byte is added, dropped or moved. *)
Theorem splitInChunks_concat (buf : list byte) (w : Z) :
  List.concat (splitInChunks buf w) = buf.
Proof.
  unfold splitInChunks. destruct (Z_lt_dec 0 w) as [pos|npos].
  - now rewrite chunkLoop_concat.
  - destruct (len buf <? 1); simpl.
    + now rewrite app_nil_r.
    + rewrite app_nil_r. apply slice_to_from.
Qed.

Lemma cons_snoc_inv {A : Type} (x : A) (l init : list A) (lst : A) :
  x :: l = init ++ [lst] ->
  (l = [] /\ init = [] /\ x = lst)
  \/ (exists init', init = x :: init' /\ l = init' ++ [lst]).
Proof.
  destruct init as [|y init']; simpl; intros H; inversion H; subst.
  - left. repeat split.
  - right. now exists init'.
Qed.

(** What the loop appends: nothing when [raw] is empty, and otherwise
    pieces of [size] bytes followed by a last piece of 1 to [size] bytes. *)
Lemma chunkLoop_shape raw size pos chunks :
  exists rest,
    chunkLoop raw size pos chunks = chunks ++ rest
    /\ (rest = [] <-> raw = [])
    /\ (forall init lst, rest = init ++ [lst] ->
          Forall (fun c => len c = size) init /\ 1 <= len lst <= size).
Proof.
  funelim (chunkLoop raw size pos chunks).
  - exists []. rewrite app_nil_r. split; [reflexivity|]. split.
    + split; [intros _; now apply len_nil_iff | reflexivity].
    + intros init lst E. destruct init; discriminate.
  - destruct H as (rest & E & Hnil & _).
    assert (rest = []) as -> by (apply Hnil, slice_from_all).
    exists [slice_to raw (len raw)]. rewrite E, app_nil_r.
    split; [reflexivity|]. split.
    + split; [discriminate|]. intros ->. now elim ne.
    + intros init lst E'. apply cons_snoc_inv in E'.
      destruct E' as [(_ & -> & <-)|(init' & _ & E')].
      * split; [constructor|]. rewrite slice_to_all.
        pose proof (len_nonneg raw). lia.
      * destruct init'; discriminate.
  - destruct H as (rest & E & Hnil & Hshape).
    assert (Hk : len (slice_to raw size) = size)
      by (apply len_slice_to; lia).
    exists (slice_to raw size :: rest). rewrite E, <- app_assoc.
    split; [reflexivity|]. split.
    + split; [discriminate|]. intros ->. now elim ne.
    + intros init lst E'. apply cons_snoc_inv in E'.
      destruct E' as [(_ & -> & <-)|(init' & -> & E')].
      * split; [constructor|]. lia.
      * destruct (Hshape _ _ E') as [Hall Hlst].
        split; [now constructor | exact Hlst].
Qed.

(** C4. For a window size [w > 0]: however the result is cut into the
    chunks before the last and the last chunk, the former all have exactly
    [w] bytes and the latter has between 1 and [w]; and the result is the
    empty sequence exactly when the buffer is empty. *)
Theorem splitInChunks_fixed_size (buf : list byte) (w : Z) :
  0 < w ->
  (forall init lst, splitInChunks buf w = init ++ [lst] ->
     Forall (fun c => len c = w) init /\ 1 <= len lst <= w)
  /\ (splitInChunks buf w = [] <-> buf = []).
Proof.
  intros Hw. unfold splitInChunks.
  destruct (Z_lt_dec 0 w) as [pos|npos]; [|contradiction].
  destruct (chunkLoop_shape buf w pos []) as (rest & E & Hnil & Hshape).
  rewrite E. simpl. split; [exact Hshape | exact Hnil].
Qed.

Lemma splitInChunks_fixed_size_witness :
  0 < 4
  /\ (forall init lst,
        splitInChunks [x16;x03;x01;x00;x2e;x01]%byte 4 = init ++ [lst] ->
        Forall (fun c => len c = 4) init /\ 1 <= len lst <= 4)
  /\ (splitInChunks [x16;x03;x01;x00;x2e;x01]%byte 4 = []
      <-> [x16;x03;x01;x00;x2e;x01]%byte = []).
Proof.
  split; [lia|]. apply (splitInChunks_fixed_size _ 4). lia.
Defined.

(** C3. For a window size [w <= 0]: a non-empty buffer gives exactly the two
    chunks [buf[:1]] and [buf[1:]], of 1 and [len buf - 1] bytes, and the
    empty buffer gives exactly one chunk, which is empty. *)
Theorem splitInChunks_legacy_split (buf : list byte) (w : Z) :
  w <= 0 ->
  (buf <> [] ->
     splitInChunks buf w = [slice_to buf 1; slice_from buf 1]
     /\ len (slice_to buf 1) = 1
     /\ len (slice_from buf 1) = len buf - 1)
  /\ (buf = [] -> splitInChunks buf w = [[]]).
Proof.
  intros Hw. unfold splitInChunks.
  destruct (Z_lt_dec 0 w) as [pos|_]; [lia|]. split.
  - intros Hne.
    assert (Hlen : 1 <= len buf).
    { pose proof (len_nonneg buf). pose proof (len_nil_iff buf).
      destruct (Z.eq_dec (len buf) 0); [tauto | lia]. }
    destruct (Z.ltb_spec (len buf) 1); [lia|].
    split; [reflexivity|]. split.
    + apply len_slice_to. lia.
    + apply len_slice_from. lia.
  - intros ->. reflexivity.
Qed.

Lemma splitInChunks_legacy_split_witness :
  0 <= 0
  /\ splitInChunks [x16;x03;x01;x00]%byte 0 = [[x16]; [x03;x01;x00]]%byte
  /\ splitInChunks [] (-1) = [[]].
Proof.
  split; [lia|]. split.
  - assert (Hne : [x16;x03;x01;x00]%byte <> []) by discriminate.
    exact (proj1 (proj1
      (splitInChunks_legacy_split [x16;x03;x01;x00]%byte 0
         (Z.le_refl 0)) Hne)).
  - apply (proj2 (splitInChunks_legacy_split [] (-1) ltac:(lia))).
    reflexivity.
Defined.

(** ** The handler configuration *)

Lemma Validate_None_iff {Regexp : Type} (c : HttpsHandlerConfig Regexp) :
  Validate c = None <->
  0 <= Timeout c /\ 0 <= WindowSize c
  /\ (TimingRandomization c = true -> TimingDelayMin c <= TimingDelayMax c).
Proof.
  unfold Validate.
  destruct (Z.ltb_spec (Timeout c) 0);
    [split; [discriminate | intros (? & _); lia]|].
  destruct (Z.ltb_spec (WindowSize c) 0);
    [split; [discriminate | intros (_ & ? & _); lia]|].
  destruct (TimingRandomization c); simpl.
  - destruct (Z.ltb_spec (TimingDelayMax c) (TimingDelayMin c)).
    + split; [discriminate | intros (_ & _ & Hm)]. specialize (Hm eq_refl). lia.
    + split; [intros _ | reflexivity]. repeat split; auto.
  - split; [intros _ | reflexivity]. repeat split; auto. discriminate.
Qed.

Lemma Default_valid {Regexp : Type} :
  Validate (@DefaultHttpsHandlerConfig Regexp) = None.
Proof. reflexivity. Qed.

(** C8. [Validate] returns an error exactly when the timeout is negative,
    the window size is negative, or timing randomization is enabled with
    [TimingDelayMin > TimingDelayMax]; and [NewHttpsHandler], which returns
    a handler and nothing else, gives it the default configuration when the
    configuration built from the options fails validation, and that
    configuration itself when it passes. *)
Theorem Validate_and_constructor {Regexp : Type} :
  (forall c : HttpsHandlerConfig Regexp,
     Validate c <> None <->
     (Timeout c < 0 \/ WindowSize c < 0
      \/ (TimingRandomization c = true /\ TimingDelayMin c > TimingDelayMax c)))
  /\ (forall opts : list (HttpsHandlerOption Regexp),
        Validate (applyOptions opts DefaultHttpsHandlerConfig) <> None ->
        config (NewHttpsHandler opts) = DefaultHttpsHandlerConfig)
  /\ (forall opts : list (HttpsHandlerOption Regexp),
        Validate (applyOptions opts DefaultHttpsHandlerConfig) = None ->
        config (NewHttpsHandler opts) = applyOptions opts DefaultHttpsHandlerConfig).
Proof.
  split; [|split].
  - intros c. rewrite Validate_None_iff. split.
    + intros Hn.
      destruct (Z_lt_dec (Timeout c) 0) as [|Ht]; [now left|].
      destruct (Z_lt_dec (WindowSize c) 0) as [|Hw]; [now right; left|].
      right; right.
      destruct (TimingRandomization c) eqn:Er.
      * split; [reflexivity|].
        destruct (Z_gt_dec (TimingDelayMin c) (TimingDelayMax c)) as [|Hm];
          [assumption|].
        exfalso. apply Hn. repeat split; try lia.
      * exfalso. apply Hn. repeat split; try lia.
    + intros [H|[H|[Hr H]]] (Ht & Hw & Hm); try lia.
      specialize (Hm Hr). lia.
  - intros opts Hbad. unfold NewHttpsHandler. simpl.
    destruct (Validate (applyOptions opts DefaultHttpsHandlerConfig));
      [reflexivity | now elim Hbad].
  - intros opts Hok. unfold NewHttpsHandler. simpl. now rewrite Hok.
Qed.

Lemma Validate_and_constructor_witness :
  Validate (applyOptions [WithTimingRandomization (Regexp := unit) 30 10]
              DefaultHttpsHandlerConfig) <> None
  /\ config (NewHttpsHandler [WithTimingRandomization (Regexp := unit) 30 10])
     = DefaultHttpsHandlerConfig
  /\ Validate (applyOptions [WithWindowSize (Regexp := unit) 4]
                 DefaultHttpsHandlerConfig) = None
  /\ WindowSize (config (NewHttpsHandler [WithWindowSize (Regexp := unit) 4])) = 4.
Proof.
  assert (Hbad : Validate (applyOptions
                   [WithTimingRandomization (Regexp := unit) 30 10]
                   DefaultHttpsHandlerConfig) <> None) by discriminate.
  split; [exact Hbad|]. split.
  - exact (proj1 (proj2 Validate_and_constructor) _ Hbad).
  - split; [reflexivity|].
    rewrite (proj2 (proj2 Validate_and_constructor)
               [WithWindowSize (Regexp := unit) 4] eq_refl).
    reflexivity.
Defined.

(** ** [Config.Load] *)

Section LoadFacts.

Variable Regexp : Type.
Variable Compile : string -> option Regexp.




(** A pattern that does not compile makes [Load] panic before it reaches
    the timing fields, which keep their values. *)
Lemma Load_panics (c : Util.Config Regexp) (args : Util.Args) :
  Exists (fun p => Compile p = None) (Util.arg_AllowedPattern args) ->
  snd (Util.Load Compile c args) = false
  /\ Util.TimingRandomization (fst (Util.Load Compile c args))
     = Util.TimingRandomization c
  /\ Util.TimingDelayMin (fst (Util.Load Compile c args)) = Util.TimingDelayMin c
  /\ Util.TimingDelayMax (fst (Util.Load Compile c args)) = Util.TimingDelayMax c.
Proof.
  intros Hex. unfold Util.Load, Util.parseAllowedPattern.
  assert (Hnone : forall acc,
    Util.parseAllowedPattern_from Compile (Util.arg_AllowedPattern args) acc = None).
  { induction Hex as [p ps Hp|p ps _ IH]; intros acc; simpl.
    - now rewrite Hp.
    - destruct (Compile p); [apply IH | reflexivity]. }
  rewrite Hnone. simpl. repeat split.
Qed.

End LoadFacts.


(** ** Running a goroutine *)

Section MonadFacts.

Context {Regexp : Type} (env : World).

Lemma run_bind {A B : Type} (m : M Regexp A) (k : A -> M Regexp B) (s : St Regexp) :
  bind m k s =
  (value_of (k (value_of (m s)) (state_of (m s))),
   state_of (k (value_of (m s)) (state_of (m s))),
   trace_of (m s) ++ trace_of (k (value_of (m s)) (state_of (m s)))).
Proof.
  unfold bind, value_of, state_of, trace_of.
  destruct (m s) as [[a s1] t1]. simpl.
  destruct (k a s1) as [[b s2] t2]. reflexivity.
Qed.

Lemma trace_bind {A B : Type} (m : M Regexp A) (k : A -> M Regexp B) (s : St Regexp) :
  trace_of (bind m k s) =
  trace_of (m s) ++ trace_of (k (value_of (m s)) (state_of (m s))).
Proof. now rewrite run_bind. Qed.

Lemma state_bind {A B : Type} (m : M Regexp A) (k : A -> M Regexp B) (s : St Regexp) :
  state_of (bind m k s) = state_of (k (value_of (m s)) (state_of (m s))).
Proof. now rewrite run_bind. Qed.

Lemma value_bind {A B : Type} (m : M Regexp A) (k : A -> M Regexp B) (s : St Regexp) :
  value_of (bind m k s) = value_of (k (value_of (m s)) (state_of (m s))).
Proof. now rewrite run_bind. Qed.

(** [randomDelay] leaves the handler and the write counter alone and writes
    to no socket. *)
Lemma randomDelay_frame (s : St Regexp) :
  hdl (state_of (randomDelay env s)) = hdl s
  /\ n_write (state_of (randomDelay env s)) = n_write s
  /\ forall c, writes_to c (trace_of (randomDelay env s)) = [].
Proof.
  unfold randomDelay. rewrite run_bind. cbn.
  destruct (TimingRandomization (config (hdl s))); cbn; [|now repeat split].
  destruct (TimingDelayMax (config (hdl s)) <=? TimingDelayMin (config (hdl s)));
    cbn; now repeat split.
Qed.

(** With randomization on and [min < max], one call draws a number below
    [max - min + 1] and sleeps [min] plus that number of milliseconds. *)
Lemma randomDelay_sleeps (s : St Regexp) :
  let cfg := config (hdl s) in
  TimingRandomization cfg = true ->
  is_uint16 (TimingDelayMin cfg) -> is_uint16 (TimingDelayMax cfg) ->
  TimingDelayMin cfg < TimingDelayMax cfg ->
  let k := TimingDelayMax cfg - TimingDelayMin cfg + 1 in
  trace_of (randomDelay env s)
    = [EvRand k; EvSleep (TimingDelayMin cfg + rand_source env (n_rand s) mod k)]
  /\ n_rand (state_of (randomDelay env s)) = S (n_rand s).
Proof.
  intros cfg Hon Hlo Hhi Hlt k. unfold randomDelay. rewrite run_bind. cbn.
  fold cfg. rewrite Hon. cbn.
  destruct (Z.leb_spec (TimingDelayMax cfg) (TimingDelayMin cfg)); [lia|].
  unfold is_uint16 in *. cbn.
  assert (Hr : u16 (TimingDelayMax cfg - TimingDelayMin cfg)
               = TimingDelayMax cfg - TimingDelayMin cfg)
    by (unfold u16; apply Z.mod_small; lia).
  rewrite Hr. fold k.
  pose proof (Z.mod_pos_bound (rand_source env (n_rand s)) k ltac:(lia)) as Hb.
  assert (Hs : u16 (rand_source env (n_rand s) mod k)
               = rand_source env (n_rand s) mod k)
    by (unfold u16; apply Z.mod_small; lia).
  rewrite Hs.
  assert (Hd : u16 (TimingDelayMin cfg + rand_source env (n_rand s) mod k)
               = TimingDelayMin cfg + rand_source env (n_rand s) mod k)
    by (unfold u16; apply Z.mod_small; lia).
  rewrite Hd. split; reflexivity.
Qed.

(** With randomization off, or with [min >= max], nothing happens. *)
Lemma randomDelay_skips (s : St Regexp) :
  let cfg := config (hdl s) in
  TimingRandomization cfg = false \/ TimingDelayMax cfg <= TimingDelayMin cfg ->
  randomDelay env s = (tt, s, []).
Proof.
  intros cfg H. unfold randomDelay. rewrite run_bind. cbn. fold cfg.
  destruct (TimingRandomization cfg); cbn; [|reflexivity].
  destruct (Z.leb_spec (TimingDelayMax cfg) (TimingDelayMin cfg));
    [reflexivity|]. destruct H; [discriminate | lia].
Qed.

End MonadFacts.

(** ** [writeChunks] *)

Section WriteChunksFacts.

Context {Regexp : Type} (env : World).

Lemma conn_eqb_refl (c : conn) : conn_eqb c c = true.
Proof. now destruct c. Qed.

Lemma writes_to_app (c : conn) (t1 t2 : list event) :
  writes_to c (t1 ++ t2) = writes_to c t1 ++ writes_to c t2.
Proof.
  induction t1 as [|e t1 IH]; [reflexivity|].
  destruct e; simpl; try apply IH.
  destruct (conn_eqb c c0); simpl; now rewrite IH.
Qed.

Lemma Write_run (c : conn) (data : list byte) (s : St Regexp) :
  trace_of (Write env c data s) = [EvWrite c data]
  /\ snd (value_of (Write env c data s)) = write_result env (n_write s)
  /\ hdl (state_of (Write env c data s)) = hdl s
  /\ n_write (state_of (Write env c data s)) = S (n_write s)
  /\ n_rand (state_of (Write env c data s)) = n_rand s.
Proof. now repeat split. Qed.

(** The chunks handed to [Write] are the chunks given, in order, up to the
    first write that fails; this does not depend on the configuration. *)
Lemma writeChunks_from_writes (conn : conn) (c : list (list byte)) :
  forall (s : St Regexp) (i total : Z),
    writes_to conn (trace_of (writeChunks_from env conn c i total s))
    = firstn (attempts (write_result env) (n_write s) c) c.
Proof.
  induction c as [|ci c IH]; intros s i total; [reflexivity|].
  cbn [writeChunks_from attempts].
  assert (Hpre : forall (m : M Regexp unit),
    (hdl (state_of (m s)) = hdl s /\ n_write (state_of (m s)) = n_write s
     /\ forall c0, writes_to c0 (trace_of (m s)) = []) ->
    writes_to conn (trace_of (bind m (fun _ =>
      bind (Write env conn ci) (fun w =>
        match snd w with
        | Some err => ret (0, Some err)
        | None => writeChunks_from env conn c (i + 1) (total + fst w)
        end)) s))
    = firstn match write_result env (n_write s) with
             | Some _ => 1%nat
             | None => S (attempts (write_result env) (S (n_write s)) c)
             end (ci :: c)).
  { intros m (Hh & Hw & Ht). rewrite trace_bind, writes_to_app, Ht.
    cbv beta. rewrite trace_bind, writes_to_app. cbv beta. simpl app.
    destruct (Write_run conn ci (state_of (m s))) as (_ & _ & _ & En & _).
    rewrite conn_eqb_refl, Hw.
    destruct (write_result env (n_write s)) as [err|]; [reflexivity|].
    simpl. f_equal. rewrite IH, En, Hw. reflexivity. }
  destruct (0 <? i).
  - apply Hpre, randomDelay_frame.
  - apply Hpre. now repeat split.
Qed.

Section Timing.

Variable cfg : HttpsHandlerConfig Regexp.
Hypothesis timing_on : TimingRandomization cfg = true.
Hypothesis min_u16 : is_uint16 (TimingDelayMin cfg).
Hypothesis max_u16 : is_uint16 (TimingDelayMax cfg).

Let lo := TimingDelayMin cfg.
Let hi := TimingDelayMax cfg.

(** From the second chunk on, with [min < max]: a draw, a sleep and a
    write for every chunk that is attempted. *)
Lemma writeChunks_from_weave (conn : conn) (c : list (list byte)) :
  lo < hi ->
  forall (s : St Regexp) (i total : Z),
    0 < i -> config (hdl s) = cfg ->
    let a := attempts (write_result env) (n_write s) c in
    trace_of (writeChunks_from env conn c i total s)
    = weave_rest conn (hi - lo + 1) (delays env lo hi (n_rand s) a) (firstn a c).
Proof.
  intros Hlt. induction c as [|ci c IH]; intros s i total Hi Hcfg a;
    [reflexivity|].
  subst a. cbn [writeChunks_from attempts].
  destruct (Z.ltb_spec 0 i); [|lia].
  rewrite trace_bind.
  destruct (randomDelay_frame env s) as (Hh & Hw & _).
  destruct (randomDelay_sleeps env s) as (Et & Er);
    try (rewrite Hcfg; assumption).
  rewrite Hcfg in Et. fold lo hi in Et. rewrite Et.
  rewrite trace_bind.
  destruct (Write_run conn ci (state_of (randomDelay env s)))
    as (Et' & Ev & Hh' & En & Er').
  rewrite Et', Ev, Hw.
  destruct (write_result env (n_write s)) as [err|]; [reflexivity|].
  cbn [firstn]. unfold delays. cbn [seq map weave_rest app].
  do 3 f_equal.
  rewrite IH; [|lia|congruence].
  rewrite En, Hw, Er', Er. reflexivity.
Qed.

(** From the second chunk on, with [min >= max]: writes only. *)
Lemma writeChunks_from_plain (conn : conn) (c : list (list byte)) :
  hi <= lo ->
  forall (s : St Regexp) (i total : Z),
    config (hdl s) = cfg ->
    trace_of (writeChunks_from env conn c i total s)
    = map (EvWrite conn) (firstn (attempts (write_result env) (n_write s) c) c).
Proof.
  intros Hle. induction c as [|ci c IH]; intros s i total Hcfg;
    [reflexivity|].
  cbn [writeChunks_from attempts].
  assert (Hskip : randomDelay env s = (tt, s, []))
    by (apply randomDelay_skips; rewrite Hcfg; now right).
  assert (Hpre : trace_of ((if 0 <? i then randomDelay env else ret tt) s) = []
                 /\ state_of ((if 0 <? i then randomDelay env else ret tt) s) = s).
  { destruct (0 <? i); [now rewrite Hskip | now split]. }
  destruct Hpre as [Et Es].
  rewrite trace_bind, Et, Es. cbv beta. rewrite trace_bind. cbv beta.
  cbn [app].
  destruct (Write_run conn ci s) as (Et' & Ev & Hh' & En & _).
  rewrite Et', Ev.
  destruct (write_result env (n_write s)) as [err|]; [reflexivity|].
  cbn [firstn map app]. f_equal.
  rewrite IH; [|congruence]. now rewrite En.
Qed.

End Timing.

End WriteChunksFacts.

Section SleepFacts.

Context {Regexp : Type} (env : World).

Lemma delays_in_range (lo hi : Z) (j n : nat) :
  lo < hi -> Forall (fun d => lo <= d <= hi) (delays env lo hi j n).
Proof.
  intros Hlt. unfold delays. apply Forall_forall. intros d Hd.
  apply in_map_iff in Hd. destruct Hd as (i & <- & _).
  pose proof (Z.mod_pos_bound (rand_source env i) (hi - lo + 1) ltac:(lia)).
  lia.
Qed.

Lemma delays_length (lo hi : Z) (j n : nat) :
  List.length (delays env lo hi j n) = n.
Proof. unfold delays. now rewrite length_map, length_seq. Qed.

(** In a woven trace with delays in range, a sleep in range separates any
    two consecutive writes. *)
Lemma weave_sleeps (c : conn) (lo hi k : Z) (ds : list Z) :
  Forall (fun d => lo <= d <= hi) ds ->
  forall (c0 : list byte) (cs : list (list byte)),
    sleeps_between_writes c lo hi (EvWrite c c0 :: weave_rest c k ds cs).
Proof.
  induction 1 as [|d ds Hd _ IH]; intros c0 cs before c1 mid c2 after E Hmid.
  - exfalso. simpl in E. destruct before as [|e [|e' before]]; simpl in E.
    + inversion E as [[E1 E2]]. destruct mid; discriminate.
    + inversion E.
    + inversion E.
  - destruct cs as [|ci cs].
    + exfalso. simpl in E. destruct before as [|e [|e' before]]; simpl in E.
      * inversion E as [[E1 E2]]. destruct mid; discriminate.
      * inversion E.
      * inversion E.
    + cbn [weave_rest] in E. destruct before as [|e before]; simpl in E.
      * inversion E as [[E1 E2]]. clear E.
        destruct mid as [|m1 [|m2 [|m3 mid]]]; simpl in E2;
          try discriminate; inversion E2; subst.
        -- exists d. split; [now right; left | exact Hd].
        -- exfalso. specialize (Hmid (EvWrite c ci)).
           simpl in Hmid. rewrite conn_eqb_refl in Hmid.
           assert (true = false) by (apply Hmid; right; right; now left).
           discriminate.
      * inversion E as [[E1 E2]]. clear E.
        destruct before as [|b1 [|b2 before]]; simpl in E2;
          try discriminate; inversion E2 as [[E3 E4 E5]].
        eapply (IH ci cs before); [exact E5 | exact Hmid].
Qed.

(** C5, as the code has it. [writeChunks] runs with timing randomization
    enabled and bounds [lo], [hi] that fit [uint16]; the chunks it gets to
    write are the first [a] ones (all of them when no write fails).  When
    [lo < hi], its trace is: the first chunk, then for every further chunk a
    draw of [rand.Intn(hi - lo + 1)], a sleep of [lo] plus the number drawn
    and the chunk; so between any two consecutive writes there is a sleep of
    [lo] to [hi] milliseconds, and every number of milliseconds from [lo]
    to [hi] is the sleep for exactly one number that can be drawn.  When
    [hi <= lo], which covers [lo = hi], the trace has the writes and
    nothing else: no sleep occurs. *)
Theorem writeChunks_timing (cfg : HttpsHandlerConfig Regexp) (conn : conn)
    (c : list (list byte)) (s : St Regexp) :
  config (hdl s) = cfg ->
  TimingRandomization cfg = true ->
  is_uint16 (TimingDelayMin cfg) -> is_uint16 (TimingDelayMax cfg) ->
  let lo := TimingDelayMin cfg in
  let hi := TimingDelayMax cfg in
  let a := attempts (write_result env) (n_write s) c in
  let t := trace_of (writeChunks env conn c s) in
  ((forall j, write_result env j = None) -> a = List.length c)
  /\ (lo < hi ->
      t = weave conn (hi - lo + 1) (delays env lo hi (n_rand s) (a - 1))
            (firstn a c)
      /\ Forall (fun d => lo <= d <= hi) (delays env lo hi (n_rand s) (a - 1))
      /\ sleeps_between_writes conn lo hi t
      /\ (forall d, lo <= d <= hi ->
            exists r, 0 <= r < hi - lo + 1 /\ lo + r mod (hi - lo + 1) = d
              /\ forall r', 0 <= r' < hi - lo + 1 ->
                   lo + r' mod (hi - lo + 1) = d -> r' = r))
  /\ (hi <= lo ->
      t = map (EvWrite conn) (firstn a c)
      /\ forall e, In e t -> is_sleep e = false).
Proof.
  intros Hcfg Hon Hlo Hhi lo hi a t. split; [|split].
  - intros Hok. subst a. generalize (n_write s).
    induction c as [|ci c' IH]; intros j; simpl; [reflexivity|].
    rewrite Hok. now rewrite IH.
  - intros Hlt.
    assert (Et : t = weave conn (hi - lo + 1)
                   (delays env lo hi (n_rand s) (a - 1)) (firstn a c)).
    { subst t a. unfold writeChunks. destruct c as [|c0 c']; [reflexivity|].
      cbn [writeChunks_from attempts]. change (0 <? 0) with false. cbv iota.
      rewrite trace_bind. cbv beta.
      change (trace_of (ret tt s)) with (@nil event).
      change (state_of (ret tt s)) with s. cbn [app].
      rewrite trace_bind. cbv beta.
      destruct (Write_run env conn c0 s) as (Et' & Ev & Hh & En & Er).
      rewrite Et', Ev.
      destruct (write_result env (n_write s)) as [err|]; [reflexivity|].
      cbv beta iota.
      rewrite (writeChunks_from_weave env cfg Hon Hlo Hhi conn c' Hlt);
        [|lia|congruence].
      rewrite En, Er. cbn [firstn weave app].
      replace (S (attempts (write_result env) (S (n_write s)) c') - 1)%nat
        with (attempts (write_result env) (S (n_write s)) c') by lia.
      reflexivity. }
    split; [exact Et|]. split; [now apply delays_in_range|]. split.
    + rewrite Et. destruct (firstn a c) as [|c0 cs].
      * intros before c1 mid c2 after E. destruct before; discriminate.
      * apply weave_sleeps. now apply delays_in_range.
    + intros d Hd. exists (d - lo). repeat split; try lia.
      * rewrite Z.mod_small; lia.
      * intros r' Hr' E. rewrite Z.mod_small in E; lia.
  - intros Hle.
    assert (Et : t = map (EvWrite conn) (firstn a c)).
    { subst t a. unfold writeChunks.
      now apply (writeChunks_from_plain env cfg). }
    split; [exact Et|]. intros e He. rewrite Et in He.
    apply in_map_iff in He. now destruct He as (x & <- & _).
Qed.

End SleepFacts.

(** ** [Serve] *)




(** Splits a run of the handler into its cases: one goal for every way the
    answers of the outside world can fall, each with the trace written
    out. *)
Ltac break_match :=
  match goal with
  | |- context [match ?x with _ => _ end] =>
      lazymatch x with
      | context [match _ with _ => _ end] => fail
      | _ => destruct x eqn:?
      end
  end.

Ltac run_cases := repeat (cbn; first [break_match | rewrite run_bind]); cbn.

Ltac tidy :=
  repeat match goal with
  | H : inl _ = inl _ |- _ => inversion H; subst; clear H
  | H : Some _ = None |- _ => discriminate H
  | H : inr _ = inl _ |- _ => discriminate H
  | H : IsClientHello ?m = true, H' : negb (IsClientHello ?m) = true |- _ =>
      rewrite H in H'; discriminate H'
  end.


Section ServeFacts.

Context {Regexp : Type} (env : World).




(** A run that gets as far as the ClientHello has all four operations: the
    200 response, the read of the record, and both [go] statements. *)
Lemma Serve_reaches_forwarders (req : HttpRequest) (ip : string)
    (s : St Regexp) (m : TLSMessage) :
  dial_result env = None ->
  write_result env (n_write s) = None ->
  tls_result env = inl m ->
  IsClientHello m = true ->
  let t := trace_of (Serve env req ip s) in
  In (EvWrite lConn (established (Version req))) t
  /\ In (EvReadTLS lConn) t
  /\ existsb (is_go rConn lConn) t = true
  /\ existsb (is_go lConn rConn) t = true.
Proof.
  intros Hdial Hw Htls Hhello t. subst t. unfold Serve, trace_of.
  run_cases; tidy; try congruence; repeat split; simpl; auto 12.
Qed.

(** C2, as the code has it. [Serve] never looks at [AllowedPatterns]: in a
    run that gets as far as the ClientHello (the dial and the write of the
    200 response succeed and the record read is a ClientHello), a handler
    with [Exploit] off writes the ClientHello upstream in a single write,
    and a handler with [Exploit] on writes the chunks of [splitInChunks],
    up to the first write that fails, whatever its patterns and the host
    name of the request are. *)
Theorem Serve_upstream_writes (req : HttpRequest) (ip : string)
    (s : St Regexp) (m : TLSMessage) :
  dial_result env = None ->
  write_result env (n_write s) = None ->
  tls_result env = inl m ->
  IsClientHello m = true ->
  let cfg := config (hdl s) in
  let t := trace_of (Serve env req ip s) in
  let chunks := splitInChunks (Raw m) (WindowSize cfg) in
  (Exploit cfg = false -> writes_to rConn t = [Raw m])
  /\ (Exploit cfg = true ->
      writes_to rConn t
      = firstn (attempts (write_result env) (S (n_write s)) chunks) chunks).
Proof.
  intros Hdial Hw Htls Hhello cfg t chunks. subst t chunks cfg.
  unfold Serve, trace_of. split; intros Hex.
  - run_cases; tidy; try congruence; reflexivity.
  - run_cases; tidy; try congruence;
      rewrite writes_to_app; unfold writeChunks;
      change (snd (writeChunks_from env ?a ?b ?i ?j ?k))
        with (trace_of (writeChunks_from env a b i j k));
      rewrite writeChunks_from_writes; cbn; now rewrite app_nil_r.
Qed.

(** The port [Serve] dials: the handler's field when the request has no
    port, and otherwise whatever [strconv.Atoi] returned, error or not; an
    error is logged and the dial follows. *)
Lemma Serve_dials (req : HttpRequest) (ip : string) (s : St Regexp) :
  exists rest,
    trace_of (Serve env req ip s)
    = (if String.eqb (Port req) EmptyString then []
       else match snd (Atoi (Port req)) with
            | Some _ => [EvLog (LogParsePort (Domain req))]
            | None => []
            end)
      ++ EvDial ip (if String.eqb (Port req) EmptyString then port (hdl s)
                    else fst (Atoi (Port req)))
      :: rest.
Proof.
  unfold Serve, trace_of. run_cases; eexists; reflexivity.
Qed.

(** The assignment to [h.port] outlives the call. *)
Lemma Serve_keeps_port (req : HttpRequest) (ip : string) (s : St Regexp) :
  port (hdl (state_of (Serve env req ip s)))
  = if String.eqb (Port req) EmptyString then port (hdl s)
    else fst (Atoi (Port req)).
Proof.
  assert (Hw : forall conn c i total (s0 : St Regexp),
    hdl (state_of (writeChunks_from env conn c i total s0)) = hdl s0).
  { intros conn c. induction c as [|ci c IH]; intros i total s0;
      [reflexivity|].
    cbn [writeChunks_from]. rewrite state_bind. cbv beta.
    rewrite state_bind. cbv beta.
    assert (Hpre : hdl (state_of ((if 0 <? i then randomDelay env else ret tt) s0))
                   = hdl s0)
      by (destruct (0 <? i); [apply randomDelay_frame | reflexivity]).
    destruct (snd (value_of (Write env conn ci
               (state_of ((if 0 <? i then randomDelay env else ret tt) s0))))).
    - cbn. exact Hpre.
    - rewrite IH. cbn. exact Hpre. }
  unfold Serve, state_of.
  run_cases; try reflexivity;
    match goal with
    | |- context [writeChunks env ?c ?cs ?s0] =>
        change (snd (fst (writeChunks env c cs s0)))
          with (state_of (writeChunks env c cs s0));
        unfold writeChunks; rewrite Hw; reflexivity
    end.
Qed.

(** A run that starts the forwarders closes no socket. *)
Lemma Serve_no_close (req : HttpRequest) (ip : string) (s : St Regexp)
    (c : conn) :
  existsb (is_go rConn lConn) (trace_of (Serve env req ip s)) = true ->
  close_calls c (trace_of (Serve env req ip s)) = 0%nat.
Proof.
  assert (Hw : forall conn cs i total (s0 : St Regexp),
    filter (is_close c) (trace_of (writeChunks_from env conn cs i total s0)) = []).
  { intros conn cs. induction cs as [|ci cs IH]; intros i total s0;
      [reflexivity|].
    cbn [writeChunks_from]. rewrite !trace_bind, !filter_app. cbv beta.
    assert (Hpre : filter (is_close c)
              (trace_of ((if 0 <? i then randomDelay env else ret tt) s0)) = []).
    { destruct (0 <? i); [|reflexivity].
      unfold randomDelay. rewrite run_bind. cbn.
      destruct (TimingRandomization (config (hdl s0))); [|reflexivity]. cbn.
      now destruct (TimingDelayMax (config (hdl s0))
                    <=? TimingDelayMin (config (hdl s0))). }
    rewrite Hpre.
    destruct (snd (value_of (Write env conn ci
               (state_of ((if 0 <? i then randomDelay env else ret tt) s0)))));
      [reflexivity|].
    rewrite IH. reflexivity. }
  unfold close_calls, Serve, trace_of.
  run_cases; try discriminate; try reflexivity; intros _;
    rewrite filter_app; unfold writeChunks;
    change (snd (writeChunks_from env ?a ?b ?i ?j ?k))
      with (trace_of (writeChunks_from env a b i j k));
    rewrite Hw; reflexivity.
Qed.

End ServeFacts.

(** ** Runs on sample inputs *)

Example Serve_legacy_run :
  trace_of (Serve (calm hello4 (fun _ => 0)) (connect_to "example.com" "443")
              upstream_ip (start plain_handler))
  = [EvDial upstream_ip 443;
     EvLog (LogNewConnection "example.com");
     EvWrite lConn (established "HTTP/1.1");
     EvLog LogSent200;
     EvReadTLS lConn;
     EvLog (LogHelloLen 4);
     EvGo rConn lConn;
     EvGo lConn rConn;
     EvLog (LogWritingChunked "example.com");
     EvLog (LogWindowSize 0);
     EvLog LogLegacy;
     EvWrite rConn [x16]%byte;
     EvWrite rConn [x03; x01; x00]%byte].
Proof. reflexivity. Qed.

(** C2, as stated, fails: the handler has [Exploit] on and one pattern,
    [example], which the host name [other.com] does not match, and the
    ClientHello still goes upstream in two writes. *)
Lemma Serve_ignores_patterns :
  let h := pattern_handler in
  let req := connect_to "other.com" "443" in
  let t := trace_of (Serve (calm hello4 (fun _ => 0)) req upstream_ip (start h)) in
  Exploit (config h) = true
  /\ AllowedPatterns (config h) <> []
  /\ (forall p, In p (AllowedPatterns (config h)) ->
        literal_match p (Domain req) = false)
  /\ writes_to rConn t = [[x16]; [x03; x01; x00]]%byte
  /\ writes_to rConn t <> [hello4].
Proof.
  cbv zeta. split; [reflexivity|]. split; [discriminate|]. split.
  - intros p [<-|[]]. reflexivity.
  - split; [reflexivity | discriminate].
Qed.

Lemma Serve_upstream_writes_witness :
  writes_to rConn
    (trace_of (Serve (calm hello4 (fun _ => 0)) (connect_to "other.com" "443")
                 upstream_ip (start pattern_handler)))
  = splitInChunks hello4 0.
Proof.
  exact (proj2
    (Serve_upstream_writes (calm hello4 (fun _ => 0))
       (connect_to "other.com" "443") upstream_ip (start pattern_handler)
       {| Raw := hello4; IsClientHello := true |}
       eq_refl eq_refl eq_refl eq_refl) eq_refl).
Defined.

(** C5, as stated, fails for equal bounds: with timing randomization on and
    both bounds at 10 ms, the three chunks of a 12-byte ClientHello are
    written one after the other and nothing sleeps in between. *)
Lemma writeChunks_equal_bounds_no_sleep :
  let h := fixed_delay_handler in
  let chunks := splitInChunks hello12 (WindowSize (config h)) in
  let t := trace_of (writeChunks (calm hello12 (fun _ => 3)) rConn chunks (start h)) in
  TimingRandomization (config h) = true
  /\ TimingDelayMin (config h) <= TimingDelayMax (config h)
  /\ (2 <= List.length chunks)%nat
  /\ t = [EvWrite rConn [x16; x03; x01; x00]%byte;
          EvWrite rConn [x07; x01; x00; x00]%byte;
          EvWrite rConn [x03; x03; x03; x00]%byte]
  /\ ~ sleeps_between_writes rConn 10 10 t.
Proof.
  cbv zeta. split; [reflexivity|]. split; [discriminate|].
  split; [vm_compute; lia|]. split; [reflexivity|].
  intros Hsleep.
  destruct (Hsleep [] [x16; x03; x01; x00]%byte [] [x07; x01; x00; x00]%byte
              [EvWrite rConn [x03; x03; x03; x00]%byte] eq_refl
              (fun e (He : In e []) => match He with end))
    as (d & [] & _).
Qed.

Lemma writeChunks_timing_witness :
  let h := short_delay_handler in
  let t := trace_of (writeChunks (calm hello12 (fun _ => 28)) rConn
                       (splitInChunks hello12 4) (start h)) in
  t = [EvWrite rConn [x16; x03; x01; x00]%byte;
       EvRand 21; EvSleep 12;
       EvWrite rConn [x07; x01; x00; x00]%byte;
       EvRand 21; EvSleep 12;
       EvWrite rConn [x03; x03; x03; x00]%byte]
  /\ sleeps_between_writes rConn 5 25 t.
Proof.
  cbv zeta.
  assert (Hlo : is_uint16 5) by (unfold is_uint16; lia).
  assert (Hhi : is_uint16 25) by (unfold is_uint16; lia).
  destruct (writeChunks_timing (calm hello12 (fun _ => 28))
              (config short_delay_handler) rConn (splitInChunks hello12 4)
              (start short_delay_handler) eq_refl eq_refl Hlo Hhi)
    as (_ & Hlt & _).
  destruct (Hlt ltac:(simpl; lia)) as (Et & _ & Hs & _).
  split; [|exact Hs].
  rewrite Et. reflexivity.
Defined.

(** C6 on the code. A port that [strconv.Atoi] rejects is logged and then
    dialled all the same: 20 nines are out of range, so the port dialled is
    the largest [int]; [44x] is malformed, so the port dialled is 0, and in
    a world where that dial succeeds the whole tunnel is set up. *)
Theorem Serve_bad_port_still_dials :
  Atoi "99999999999999999999" = (maxInt64, Some ErrRange)
  /\ trace_of (Serve refusing (connect_to "example.com" "99999999999999999999")
                 upstream_ip (start plain_handler))
     = [EvLog (LogParsePort "example.com");
        EvDial upstream_ip 9223372036854775807;
        EvClose lConn;
        EvLog (LogDialError "connect: invalid argument"%string)]
  /\ Atoi "44x" = (0, Some ErrSyntax)
  /\ trace_of (Serve (calm hello4 (fun _ => 0)) (connect_to "example.com" "44x")
                 upstream_ip (start plain_handler))
     = [EvLog (LogParsePort "example.com");
        EvDial upstream_ip 0;
        EvLog (LogNewConnection "example.com");
        EvWrite lConn (established "HTTP/1.1");
        EvLog LogSent200;
        EvReadTLS lConn;
        EvLog (LogHelloLen 4);
        EvGo rConn lConn;
        EvGo lConn rConn;
        EvLog (LogWritingChunked "example.com");
        EvLog (LogWindowSize 0);
        EvLog LogLegacy;
        EvWrite rConn [x16]%byte;
        EvWrite rConn [x03; x01; x00]%byte].
Proof. repeat split. Qed.

(** With a port that parses, and with none on a fresh handler, the dial is
    as the request asks. *)
Example Serve_port_8443 :
  existsb is_dial (trace_of (Serve refusing (connect_to "example.com" "8443")
                               upstream_ip (start plain_handler))) = true
  /\ In (EvDial upstream_ip 8443)
        (trace_of (Serve refusing (connect_to "example.com" "8443")
                     upstream_ip (start plain_handler)))
  /\ In (EvDial upstream_ip 443)
        (trace_of (Serve refusing (connect_to "example.com" EmptyString)
                     upstream_ip (start plain_handler))).
Proof. repeat split; simpl; auto. Qed.

(** ** The forwarders and the sockets *)

Section ForwarderFacts.

Context {Regexp : Type}.

Lemma close_calls_app (c : conn) (t1 t2 : list event) :
  close_calls c (t1 ++ t2) = (close_calls c t1 + close_calls c t2)%nat.
Proof. unfold close_calls. now rewrite filter_app, length_app. Qed.

(** The loop of [communicate] closes nothing. *)
Lemma communicate_loop_no_close (env : World) (fuel : nat) (from to c : conn) :
  forall s : St Regexp,
    close_calls c (trace_of (communicate_loop env fuel from to s)) = 0%nat.
Proof.
  induction fuel as [|fuel IH]; intros s; [reflexivity|].
  unfold close_calls, trace_of in *. cbn [communicate_loop].
  run_cases; try reflexivity;
    match goal with
    | H : communicate_loop _ _ _ _ ?st = _ |- _ =>
        specialize (IH st); rewrite H in IH; exact IH
    end.
Qed.

(** Once its loop is left, [communicate] calls [Close] on [from] and on
    [to], once each. *)
Lemma communicate_close_calls (env : World) (fuel : nat) (from to c : conn)
    (s : St Regexp) :
  value_of (communicate env fuel from to s) = true ->
  close_calls c (trace_of (communicate env fuel from to s))
  = ((if conn_eqb c from then 1 else 0) + (if conn_eqb c to then 1 else 0))%nat.
Proof.
  unfold communicate. rewrite value_bind, trace_bind, close_calls_app.
  rewrite communicate_loop_no_close. cbv beta.
  destruct (value_of (communicate_loop env fuel from to s)).
  - intros _. cbn. unfold close_calls. cbn.
    destruct (conn_eqb c from), (conn_eqb c to); reflexivity.
  - discriminate.
Qed.

Lemma close_calls_merge (c : conn) (sched : list bool) :
  forall t1 t2 : list event,
    close_calls c (merge sched t1 t2)
    = (close_calls c t1 + close_calls c t2)%nat.
Proof.
  induction sched as [|b sched IH]; intros t1 t2; simpl.
  - apply close_calls_app.
  - destruct t1 as [|x t1]; [reflexivity|].
    destruct t2 as [|y t2]; [unfold close_calls; simpl; lia|].
    destruct b.
    + change (x :: merge sched t1 (y :: t2))
        with ([x] ++ merge sched t1 (y :: t2)).
      change (x :: t1) with ([x] ++ t1).
      rewrite !close_calls_app, IH. lia.
    + change (y :: merge sched (x :: t1) t2)
        with ([y] ++ merge sched (x :: t1) t2).
      change (y :: t2) with ([y] ++ t2).
      rewrite !close_calls_app, IH. lia.
Qed.

(** The schedules reach every interleaving. *)
Lemma interleaving_merge {A : Type} (t1 t2 t : list A) :
  interleaving t1 t2 t -> exists sched, merge sched t1 t2 = t.
Proof.
  induction 1 as [|x t1 t2 t _ [sched IH]|y t1 t2 t _ [sched IH]].
  - now exists [].
  - destruct t2 as [|y t2].
    + exists []. simpl. rewrite app_nil_r. f_equal.
      rewrite <- IH. destruct sched, t1; simpl; try reflexivity;
        now rewrite ?app_nil_r.
    + exists (true :: sched). simpl. now rewrite IH.
  - destruct t1 as [|x t1].
    + exists []. simpl. f_equal.
      rewrite <- IH. destruct sched, t2; reflexivity.
    + exists (false :: sched). simpl. now rewrite IH.
Qed.

(** Of the calls of [Close] on a socket, the first one closes the
    descriptor and the others find it closed. *)
Lemma fd_closes_calls (c : conn) (t : list event) :
  forall open : bool,
    fd_closes c open t
    = (if open && negb (Nat.eqb (close_calls c t) 0) then 1 else 0)%nat
    /\ is_open c open t = open && Nat.eqb (close_calls c t) 0.
Proof.
  unfold close_calls.
  induction t as [|e t IH]; intros open; simpl.
  - destruct open; now split.
  - destruct (is_close c e); simpl.
    + destruct (IH false) as [E1 E2]. rewrite E1, E2.
      destruct open; simpl; split; reflexivity.
    + apply IH.
Qed.

(** C9. Take a run of [Serve] that starts the two forwarders, and runs of
    [communicate(rConn, lConn)] and of [communicate(lConn, rConn)] whose
    loops have both been left, in any world each.  However the three
    goroutines are scheduled, at the end both sockets are closed and the
    descriptor of each has been closed exactly once: [Close] is called
    twice on each socket, once by each forwarder, and whichever call comes
    second finds the socket closed and does nothing. *)
Theorem tunnel_closes_once (env_s env_a env_b : World)
    (req : HttpRequest) (ip : string) (s s_a s_b : St Regexp)
    (fuel_a fuel_b : nat) (sched sched' : list bool) :
  let t_s := trace_of (Serve env_s req ip s) in
  let t_a := trace_of (communicate env_a fuel_a rConn lConn s_a) in
  let t_b := trace_of (communicate env_b fuel_b lConn rConn s_b) in
  existsb (is_go rConn lConn) t_s = true ->
  value_of (communicate env_a fuel_a rConn lConn s_a) = true ->
  value_of (communicate env_b fuel_b lConn rConn s_b) = true ->
  let t := merge sched' t_s (merge sched t_a t_b) in
  (fd_closes lConn true t = 1 /\ fd_closes rConn true t = 1)%nat
  /\ (is_open lConn true t = false /\ is_open rConn true t = false)
  /\ (close_calls lConn t = 2 /\ close_calls rConn t = 2)%nat.
Proof.
  intros t_s t_a t_b Hgo Ha Hb t.
  assert (Hcalls : forall c, close_calls c t = 2%nat).
  { intros c. subst t t_s t_a t_b. rewrite !close_calls_merge.
    rewrite (Serve_no_close env_s req ip s c Hgo).
    rewrite (communicate_close_calls env_a fuel_a rConn lConn c s_a Ha).
    rewrite (communicate_close_calls env_b fuel_b lConn rConn c s_b Hb).
    now destruct c. }
  pose proof (fd_closes_calls lConn t true) as [El Ol].
  pose proof (fd_closes_calls rConn t true) as [Er Or].
  rewrite El, Er, Ol, Or, !Hcalls. repeat split; reflexivity.
Qed.

End ForwarderFacts.

Lemma tunnel_closes_once_witness :
  let t_s := trace_of (Serve (calm hello4 (fun _ => 0))
                         (connect_to "example.com" "443") upstream_ip
                         (start plain_handler)) in
  let t_a := trace_of (communicate (closing_after 1) 5 rConn lConn
                         (start plain_handler)) in
  let t_b := trace_of (communicate (closing_after 0) 5 lConn rConn
                         (start plain_handler)) in
  let t := merge [true; false; true] t_s
             (merge [true; true; true; true; false; false; true] t_a t_b) in
  existsb (is_go rConn lConn) t_s = true
  /\ filter (fun e => is_close lConn e || is_close rConn e) t
     = [EvClose rConn; EvClose lConn; EvClose lConn; EvClose rConn]
  /\ fd_closes lConn true t = 1%nat /\ fd_closes rConn true t = 1%nat.
Proof.
  cbv zeta. split; [reflexivity|]. split; [reflexivity|].
  exact (proj1
    (tunnel_closes_once (calm hello4 (fun _ => 0)) (closing_after 1)
       (closing_after 0) (connect_to "example.com" "443") upstream_ip
       (start plain_handler) (start plain_handler) (start plain_handler)
       5 5 [true; true; true; true; false; false; true] [true; false; true]
       eq_refl eq_refl eq_refl)).
Defined.

(** The handler is shared: after a request for port 8443, a request without
    a port on the same handler dials 8443 again. *)
Example Serve_port_sticks :
  let first := Serve refusing (connect_to "example.com" "8443") upstream_ip
                 (start plain_handler) in
  port (hdl (state_of first)) = 8443
  /\ trace_of (Serve refusing (connect_to "example.org" EmptyString) upstream_ip
                 (state_of first))
     = [EvDial upstream_ip 8443; EvClose lConn;
        EvLog (LogDialError "connect: invalid argument"%string)].
Proof. split; reflexivity. Qed.

(** * Further properties *)

(** ** The chunker: how many chunks *)

Lemma chunkLoop_count raw size pos chunks :
  len (chunkLoop raw size pos chunks)
  = len chunks + (len raw + size - 1) / size.
Proof.
  funelim (chunkLoop raw size pos chunks).
  - rewrite e. rewrite Z.div_small; lia.
  - rewrite H, len_app, slice_from_all.
    change (len (@nil byte)) with 0. change (len [slice_to raw (len raw)]) with 1.
    pose proof (len_nonneg raw).
    rewrite (Z.div_small (0 + len raw - 1)); [|lia].
    assert (E : (len raw + size - 1) / size = 1).
    { symmetry. apply (Z.div_unique _ _ 1 (len raw - 1)); lia. }
    lia.
  - rewrite H, len_app, len_slice_from; [|lia].
    change (len [slice_to raw size]) with 1.
    replace (len raw + size - 1) with ((len raw - size + size - 1) + 1 * size) by lia.
    rewrite Z.div_add; lia.
Qed.

(** X1. For a window size [w > 0], [splitInChunks] returns
    [ceil(len buf / w)] chunks. *)
Theorem splitInChunks_count (buf : list byte) (w : Z) :
  0 < w -> len (splitInChunks buf w) = (len buf + w - 1) / w.
Proof.
  intros Hw. unfold splitInChunks.
  destruct (Z_lt_dec 0 w) as [pos|]; [|contradiction].
  rewrite chunkLoop_count. reflexivity.
Qed.

Lemma splitInChunks_count_witness :
  0 < 4 /\ len (splitInChunks hello12 4) = 3 /\ len (splitInChunks hello4 3) = 2.
Proof.
  split; [lia|]. split.
  - rewrite (splitInChunks_count hello12 4); [reflexivity | lia].
  - rewrite (splitInChunks_count hello4 3); [reflexivity | lia].
Defined.

(** X2. A window at least as large as a non-empty buffer does not fragment
    it: the result is the buffer as a single chunk. *)
Theorem splitInChunks_wide_window (buf : list byte) (w : Z) :
  buf <> [] -> len buf <= w -> splitInChunks buf w = [buf].
Proof.
  intros Hne Hw.
  assert (Hpos : 0 < len buf).
  { pose proof (len_nonneg buf). pose proof (len_nil_iff buf).
    destruct (Z.eq_dec (len buf) 0); [tauto | lia]. }
  unfold splitInChunks.
  destruct (Z_lt_dec 0 w) as [pos|]; [|lia].
  pose proof (chunkLoop_count buf w pos []) as Hc.
  pose proof (chunkLoop_concat buf w pos []) as Hcat.
  change (len (@nil (list byte))) with 0 in Hc.
  assert (E : (len buf + w - 1) / w = 1).
  { symmetry. apply (Z.div_unique _ _ 1 (len buf - 1)); lia. }
  rewrite E in Hc.
  destruct (chunkLoop buf w pos []) as [|c0 [|c1 cs]]; unfold len in Hc;
    simpl in Hc; try lia.
  simpl in Hcat. rewrite app_nil_r in Hcat. now subst.
Qed.

Lemma splitInChunks_wide_window_witness :
  hello4 <> [] /\ len hello4 <= 4 /\ splitInChunks hello4 4 = [hello4].
Proof.
  assert (Hne : hello4 <> []) by discriminate.
  assert (Hw : len hello4 <= 4) by (vm_compute; discriminate).
  split; [exact Hne|]. split; [exact Hw|].
  exact (splitInChunks_wide_window hello4 4 Hne Hw).
Defined.

(** ** The constructor keeps the configuration valid *)

(** X3. Whatever the options, the handler [NewHttpsHandler] returns has a
    configuration that passes [Validate], listens for port 443 by default
    and reads with a buffer of 1024 bytes. *)
Theorem NewHttpsHandler_valid {Regexp : Type}
    (opts : list (HttpsHandlerOption Regexp)) :
  Validate (config (NewHttpsHandler opts)) = None
  /\ port (NewHttpsHandler opts) = 443
  /\ bufferSize (NewHttpsHandler opts) = 1024.
Proof.
  unfold NewHttpsHandler. simpl. split; [|split; reflexivity].
  destruct (Validate (applyOptions opts DefaultHttpsHandlerConfig)) eqn:E;
    [apply Default_valid | exact E].
Qed.

(** ** The arguments and [Config.Load], continued *)

Section MoreLoadFacts.

Variable Regexp : Type.
Variable Compile : string -> option Regexp.

Lemma parseAllowedPattern_from_spec (patterns : list string) :
  forall acc res,
    Util.parseAllowedPattern_from Compile patterns acc = Some res <->
    exists rs, res = acc ++ rs
               /\ Forall2 (fun p r => Compile p = Some r) patterns rs.
Proof.
  induction patterns as [|p ps IH]; intros acc res; simpl.
  - split.
    + intros E. inversion E; subst. exists []. rewrite app_nil_r.
      split; [reflexivity | constructor].
    + intros (rs & -> & H). inversion H; subst. now rewrite app_nil_r.
  - destruct (Compile p) as [re|] eqn:Ep.
    + rewrite IH. split.
      * intros (rs & -> & H). exists (re :: rs). rewrite <- app_assoc.
        split; [reflexivity | now constructor].
      * intros (rs & -> & H). inversion H as [|? r ? rs' Hp Hrest]; subst.
        rewrite Ep in Hp. inversion Hp; subst.
        exists rs'. rewrite <- app_assoc. split; [reflexivity | assumption].
    + split; [discriminate|].
      intros (rs & _ & H). inversion H; subst. congruence.
Qed.

(** X4. [parseAllowedPattern] returns exactly when every pattern compiles,
    and what it returns is the compiled patterns, one per pattern and in the
    order given. *)
Theorem parseAllowedPattern_spec (patterns : list string) (rs : list Regexp) :
  Util.parseAllowedPattern Compile patterns = Some rs <->
  Forall2 (fun p r => Compile p = Some r) patterns rs.
Proof.
  unfold Util.parseAllowedPattern. rewrite parseAllowedPattern_from_spec.
  split.
  - intros (rs' & -> & H). exact H.
  - intros H. now exists rs.
Qed.

(** X5. A call of [Load] that returns has assigned every field: the
    configuration afterwards does not depend on the one before, and its
    patterns are the compiled patterns in the order of the arguments. *)
Theorem Load_overwrites (c1 c2 : Util.Config Regexp) (args : Util.Args) :
  snd (Util.Load Compile c1 args) = true ->
  Util.Load Compile c1 args = Util.Load Compile c2 args
  /\ Forall2 (fun p r => Compile p = Some r) (Util.arg_AllowedPattern args)
       (Util.AllowedPatterns (fst (Util.Load Compile c1 args))).
Proof.
  unfold Util.Load.
  destruct (Util.parseAllowedPattern Compile (Util.arg_AllowedPattern args))
    as [rs|] eqn:E; [|discriminate].
  intros _. unfold Util.parseAllowedPattern in E.
  apply parseAllowedPattern_from_spec in E. destruct E as (rs' & -> & E).
  destruct (Util.loadTiming (Util.arg_RandomTiming args)) as [[en lo] hi].
  split; [reflexivity | exact E].
Qed.

(** X6. The presets. A call of [Load] that returns enables timing
    randomization exactly when the flag is set; the values short, medium
    and long give the bounds (5, 25), (25, 50) and (50, 100); and whenever
    randomization is enabled the lower bound is positive and strictly below
    the upper one, which is at most 100. *)
Theorem Load_presets (c : Util.Config Regexp) (args : Util.Args) :
  snd (Util.Load Compile c args) = true ->
  let flag := Util.arg_RandomTiming args in
  let c' := fst (Util.Load Compile c args) in
  Util.TimingRandomization c' = Util.IsSet flag
  /\ (Util.IsSet flag = true ->
      (Util.Value flag = "short"%string ->
       Util.TimingDelayMin c' = 5 /\ Util.TimingDelayMax c' = 25)
      /\ (Util.Value flag = "medium"%string ->
          Util.TimingDelayMin c' = 25 /\ Util.TimingDelayMax c' = 50)
      /\ (Util.Value flag = "long"%string ->
          Util.TimingDelayMin c' = 50 /\ Util.TimingDelayMax c' = 100)
      /\ 0 < Util.TimingDelayMin c' < Util.TimingDelayMax c'
      /\ Util.TimingDelayMax c' <= 100).
Proof.
  unfold Util.Load.
  destruct (Util.parseAllowedPattern Compile (Util.arg_AllowedPattern args))
    as [rs|]; [|discriminate].
  intros _. set (flag := Util.arg_RandomTiming args).
  unfold Util.loadTiming.
  destruct (Util.IsSet flag); simpl; [|split; [reflexivity | discriminate]].
  split; [|intros _].
  - destruct (String.eqb (Util.Value flag) EmptyString); simpl;
      [reflexivity|].
    destruct (String.eqb (Util.Value flag) "short"); [reflexivity|].
    destruct (String.eqb (Util.Value flag) "medium"); [reflexivity|].
    destruct (String.eqb (Util.Value flag) "long"); reflexivity.
  - destruct (String.eqb_spec (Util.Value flag) EmptyString) as [E|E]; simpl.
    + rewrite E. repeat split; try discriminate; lia.
    + destruct (String.eqb_spec (Util.Value flag) "short") as [E1|E1]; simpl.
      * rewrite E1. repeat split; try discriminate; lia.
      * destruct (String.eqb_spec (Util.Value flag) "medium") as [E2|E2]; simpl.
        -- rewrite E2. repeat split; try discriminate; lia.
        -- destruct (String.eqb_spec (Util.Value flag) "long") as [E3|E3];
             simpl.
           ++ rewrite E3. repeat split; try discriminate; lia.
           ++ repeat split; try contradiction; lia.
Qed.

End MoreLoadFacts.

Lemma parseAllowedPattern_spec_witness :
  Util.parseAllowedPattern compile_literal ["a(b)"; "example"]%string
  = Some ["a(b)"; "example"]%string
  /\ Util.parseAllowedPattern compile_literal ["example"; "(x"]%string = None.
Proof.
  split.
  - apply (proj2 (@parseAllowedPattern_spec string compile_literal
                    ["a(b)"; "example"]%string ["a(b)"; "example"]%string)).
    repeat constructor.
  - destruct (Util.parseAllowedPattern compile_literal ["example"; "(x"]%string)
      as [rs|] eqn:E; [|reflexivity].
    apply (proj1 (@parseAllowedPattern_spec string compile_literal _ rs)) in E.
    inversion E as [|? ? ? ? _ E']; subst.
    inversion E' as [|? ? ? ? Hbad _]; subst. discriminate Hbad.
Defined.

Lemma Load_overwrites_witness :
  Util.Load compile_literal sample_config
    (sample_args {| Util.Value := "long"; Util.IsSet := true |})
  = Util.Load compile_literal
      (fst (Util.Load compile_literal sample_config
              (sample_args {| Util.Value := "short"; Util.IsSet := true |})))
      (sample_args {| Util.Value := "long"; Util.IsSet := true |}).
Proof.
  exact (proj1 (@Load_overwrites string compile_literal sample_config _
                  (sample_args {| Util.Value := "long"; Util.IsSet := true |})
                  eq_refl)).
Defined.

Lemma Load_presets_witness :
  let c' := fst (Util.Load compile_literal sample_config
                   (sample_args {| Util.Value := "medium"; Util.IsSet := true |})) in
  Util.TimingRandomization c' = true
  /\ Util.TimingDelayMin c' = 25 /\ Util.TimingDelayMax c' = 50.
Proof.
  cbv zeta.
  destruct (@Load_presets string compile_literal sample_config
              (sample_args {| Util.Value := "medium"; Util.IsSet := true |})
              eq_refl) as (En & Hset).
  split; [exact En|].
  exact (proj1 (proj2 (Hset eq_refl)) eq_refl).
Defined.

(** ** The flags *)

(** X7. The loop that ends [ParseArgs] looks at the first [random-timing]
    argument only, in either spelling.  If it is the last argument or the
    next one starts with a dash, the flag becomes set with the value short;
    if another kind of argument follows, or if there is no such argument at
    all, the flag is left as [flag.Parse] made it. *)
Theorem ParseArgs_randomTiming_spec (flag : Util.TimingFlag) :
  let is_flag := fun a : string =>
    String.eqb a "--random-timing" || String.eqb a "-random-timing" in
  let short := {| Util.Value := "short"; Util.IsSet := true |} in
  (forall osArgs,
     (forall a, In a osArgs -> is_flag a = false) ->
     Util.ParseArgs_randomTiming osArgs flag = flag)
  /\ (forall before a rest,
        (forall x, In x before -> is_flag x = false) ->
        is_flag a = true ->
        Util.ParseArgs_randomTiming (before ++ a :: rest) flag
        = match rest with
          | [] => short
          | next :: _ => if String.prefix "-" next then short else flag
          end).
Proof.
  cbv zeta. split.
  - induction osArgs as [|a osArgs IH]; intros Hno; [reflexivity|].
    simpl. rewrite (Hno a (or_introl eq_refl)).
    apply IH. intros x Hx. apply Hno. now right.
  - induction before as [|b before IH]; intros a rest Hno Ha; simpl.
    + now rewrite Ha.
    + rewrite (Hno b (or_introl eq_refl)).
      apply IH; [|exact Ha]. intros x Hx. apply Hno. now right.
Qed.

Lemma ParseArgs_randomTiming_spec_witness :
  let unset := {| Util.Value := EmptyString; Util.IsSet := false |} in
  let long := {| Util.Value := "long"; Util.IsSet := true |} in
  Util.ParseArgs_randomTiming
    ["spoofdpi"; "-debug"; "--random-timing"]%string unset
  = {| Util.Value := "short"; Util.IsSet := true |}
  /\ Util.ParseArgs_randomTiming
       ["spoofdpi"; "-random-timing"; "long"; "--random-timing"]%string long
     = long.
Proof.
  cbv zeta. split.
  - apply (proj2 (ParseArgs_randomTiming_spec _)
             ["spoofdpi"; "-debug"]%string "--random-timing"%string []).
    + intros x [<-|[<-|[]]]; reflexivity.
    + reflexivity.
  - apply (proj2 (ParseArgs_randomTiming_spec _)
             ["spoofdpi"]%string "-random-timing"%string
             ["long"; "--random-timing"]%string).
    + intros x [<-|[]]; reflexivity.
    + reflexivity.
Defined.

(** ** [writeChunks], continued *)

Section MoreWriteChunksFacts.

Context {Regexp : Type} (env : World).

Lemma Write_value (c : conn) (data : list byte) (s : St Regexp) :
  value_of (Write env c data s)
  = (match write_result env (n_write s) with
     | None => len data
     | Some _ => 0
     end, write_result env (n_write s)).
Proof. reflexivity. Qed.

(** The state before the write of a chunk: the delay, if any, leaves the
    write counter and the handler alone. *)
Lemma delay_frame (i : Z) (s : St Regexp) :
  let s' := state_of ((if 0 <? i then randomDelay env else ret tt) s) in
  hdl s' = hdl s /\ n_write s' = n_write s.
Proof.
  cbv zeta. destruct (0 <? i).
  - destruct (randomDelay_frame env s) as (H1 & H2 & _). now split.
  - now split.
Qed.

Lemma writeChunks_from_state (conn : conn) (c : list (list byte)) :
  forall (s : St Regexp) (i total : Z),
    hdl (state_of (writeChunks_from env conn c i total s)) = hdl s.
Proof.
  induction c as [|ci c IH]; intros s i total; [reflexivity|].
  cbn [writeChunks_from]. rewrite state_bind. cbv beta.
  rewrite state_bind. cbv beta.
  destruct (delay_frame i s) as [Hh _].
  destruct (snd (value_of (Write env conn ci
             (state_of ((if 0 <? i then randomDelay env else ret tt) s))))).
  - cbn. exact Hh.
  - rewrite IH. cbn. exact Hh.
Qed.

Lemma writeChunks_from_all_ok (conn : conn) (c : list (list byte)) :
  forall (s : St Regexp) (i total : Z),
    (forall j, (j < List.length c)%nat ->
               write_result env (n_write s + j) = None) ->
    value_of (writeChunks_from env conn c i total s)
    = (total + len (List.concat c), None).
Proof.
  induction c as [|ci c IH]; intros s i total Hok.
  - cbn. change (len (@nil byte)) with 0. now rewrite Z.add_0_r.
  - cbn [writeChunks_from]. rewrite value_bind. cbv beta.
    rewrite value_bind. cbv beta.
    destruct (delay_frame i s) as [Hh Hw].
    rewrite Write_value, Hw.
    pose proof (Hok 0%nat ltac:(simpl; lia)) as H0.
    rewrite Nat.add_0_r in H0. rewrite H0. cbn [fst snd].
    rewrite IH.
    + cbn [List.concat]. rewrite len_app. f_equal. lia.
    + intros j Hj.
      destruct (Write_run env conn ci
                  (state_of ((if 0 <? i then randomDelay env else ret tt) s)))
        as (_ & _ & _ & En & _).
      rewrite En, Hw.
      replace (S (n_write s) + j)%nat with (n_write s + S j)%nat by lia.
      apply Hok. simpl. lia.
Qed.

Lemma writeChunks_from_failure (conn : conn) (c : list (list byte)) :
  forall (s : St Regexp) (i total : Z) (k : nat) (err : error),
    (k < List.length c)%nat ->
    (forall j, (j < k)%nat -> write_result env (n_write s + j) = None) ->
    write_result env (n_write s + k) = Some err ->
    value_of (writeChunks_from env conn c i total s) = (0, Some err)
    /\ attempts (write_result env) (n_write s) c = S k.
Proof.
  induction c as [|ci c IH]; intros s i total k err Hk Hok Herr;
    [simpl in Hk; lia|].
  cbn [writeChunks_from attempts]. rewrite value_bind. cbv beta.
  rewrite value_bind. cbv beta.
  destruct (delay_frame i s) as [Hh Hw].
  rewrite Write_value, Hw.
  destruct k as [|k].
  - rewrite Nat.add_0_r in Herr. rewrite Herr. now split.
  - pose proof (Hok 0%nat ltac:(lia)) as H0.
    rewrite Nat.add_0_r in H0. rewrite H0. cbn [fst snd].
    destruct (Write_run env conn ci
                (state_of ((if 0 <? i then randomDelay env else ret tt) s)))
      as (_ & _ & _ & En & _).
    destruct (IH (state_of (Write env conn ci
                   (state_of ((if 0 <? i then randomDelay env else ret tt) s))))
                 (i + 1) (total + len ci) k err) as [Ev Ea].
    + simpl in Hk. lia.
    + intros j Hj. rewrite En, Hw.
      replace (S (n_write s) + j)%nat with (n_write s + S j)%nat by lia.
      apply Hok. lia.
    + rewrite En, Hw.
      replace (S (n_write s) + k)%nat with (n_write s + S k)%nat by lia.
      exact Herr.
    + split; [exact Ev|]. rewrite En, Hw in Ea. now rewrite Ea.
Qed.

(** With randomization off, or with [max <= min], the trace of the loop is
    the writes and nothing else. *)
Lemma writeChunks_from_quiet (conn : conn) (c : list (list byte)) :
  forall (s : St Regexp) (i total : Z),
    TimingRandomization (config (hdl s)) = false
    \/ TimingDelayMax (config (hdl s)) <= TimingDelayMin (config (hdl s)) ->
    trace_of (writeChunks_from env conn c i total s)
    = map (EvWrite conn) (firstn (attempts (write_result env) (n_write s) c) c).
Proof.
  induction c as [|ci c IH]; intros s i total Hoff; [reflexivity|].
  cbn [writeChunks_from attempts].
  assert (Hskip : randomDelay env s = (tt, s, []))
    by (now apply randomDelay_skips).
  assert (Hpre : trace_of ((if 0 <? i then randomDelay env else ret tt) s) = []
                 /\ state_of ((if 0 <? i then randomDelay env else ret tt) s) = s).
  { destruct (0 <? i); [now rewrite Hskip | now split]. }
  destruct Hpre as [Et Es].
  rewrite trace_bind, Et, Es. cbv beta. rewrite trace_bind. cbv beta.
  cbn [app].
  destruct (Write_run env conn ci s) as (Et' & Ev & Hh' & En & _).
  rewrite Et', Ev.
  destruct (write_result env (n_write s)) as [err|]; [reflexivity|].
  cbn [firstn map app]. f_equal.
  rewrite IH; [now rewrite En | now rewrite Hh'].
Qed.

(** X8. When every write succeeds, [writeChunks] returns the total number
    of bytes of the chunks and no error; on the chunks of [splitInChunks]
    that is the length of the buffer, whatever the window. *)
Theorem writeChunks_total (conn : conn) (s : St Regexp) :
  (forall j, write_result env j = None) ->
  (forall c, value_of (writeChunks env conn c s) = (len (List.concat c), None))
  /\ (forall buf w,
        value_of (writeChunks env conn (splitInChunks buf w) s)
        = (len buf, None)).
Proof.
  intros Hok.
  assert (Hall : forall c,
    value_of (writeChunks env conn c s) = (len (List.concat c), None)).
  { intros c. unfold writeChunks. rewrite writeChunks_from_all_ok; [reflexivity|].
    intros j _. apply Hok. }
  split; [exact Hall|].
  intros buf w. rewrite Hall. f_equal. f_equal.
  unfold splitInChunks. destruct (Z_lt_dec 0 w) as [pos|npos].
  - now rewrite chunkLoop_concat.
  - destruct (len buf <? 1); simpl; rewrite app_nil_r;
      [reflexivity | apply slice_to_from].
Qed.

(** X9. When write number [k] is the first to fail, [writeChunks] returns
    0 and the error of that write, and the chunks it handed to [Write] are
    the first [k + 1]: nothing is written after the failure. *)
Theorem writeChunks_stops (conn : conn) (c : list (list byte))
    (s : St Regexp) (k : nat) (err : error) :
  (k < List.length c)%nat ->
  (forall j, (j < k)%nat -> write_result env (n_write s + j) = None) ->
  write_result env (n_write s + k) = Some err ->
  value_of (writeChunks env conn c s) = (0, Some err)
  /\ writes_to conn (trace_of (writeChunks env conn c s)) = firstn (S k) c.
Proof.
  intros Hk Hok Herr. unfold writeChunks.
  destruct (writeChunks_from_failure conn c s 0 0 k err Hk Hok Herr)
    as [Ev Ea].
  split; [exact Ev|]. now rewrite writeChunks_from_writes, Ea.
Qed.

(** X10. With timing randomization off, [writeChunks] draws no random
    number and never sleeps: its trace is the writes of the chunks, one
    after the other. *)
Theorem writeChunks_no_timing (conn : conn) (c : list (list byte))
    (s : St Regexp) :
  TimingRandomization (config (hdl s)) = false ->
  trace_of (writeChunks env conn c s)
  = map (EvWrite conn) (firstn (attempts (write_result env) (n_write s) c) c)
  /\ count is_sleep (trace_of (writeChunks env conn c s)) = 0%nat
  /\ count is_rand (trace_of (writeChunks env conn c s)) = 0%nat.
Proof.
  intros Hoff. unfold writeChunks.
  rewrite writeChunks_from_quiet; [|now left].
  split; [reflexivity|]. unfold count.
  generalize (firstn (attempts (write_result env) (n_write s) c) c).
  intros l. split; induction l as [|x l IH]; simpl; auto.
Qed.

End MoreWriteChunksFacts.

Lemma writeChunks_total_witness :
  value_of (writeChunks (calm hello12 (fun _ => 0)) rConn
              (splitInChunks hello12 5) (start short_delay_handler))
  = (12, None).
Proof.
  exact (proj2 (writeChunks_total (calm hello12 (fun _ => 0)) rConn
                  (start short_delay_handler) (fun _ => eq_refl)) hello12 5).
Defined.

Lemma writeChunks_stops_witness :
  let r := writeChunks (failing_write hello12 1) rConn (splitInChunks hello12 4)
             (start plain_handler) in
  value_of r = (0, Some "broken pipe"%string)
  /\ writes_to rConn (trace_of r)
     = [[x16; x03; x01; x00]; [x07; x01; x00; x00]]%byte.
Proof.
  cbv zeta.
  destruct (writeChunks_stops (failing_write hello12 1) rConn
              (splitInChunks hello12 4) (start plain_handler) 1
              "broken pipe"%string) as [Ev Ew].
  - vm_compute. lia.
  - intros j Hj. assert (j = 0%nat) as -> by lia. reflexivity.
  - reflexivity.
  - split; [exact Ev|]. rewrite Ew. reflexivity.
Defined.

Lemma writeChunks_no_timing_witness :
  trace_of (writeChunks (calm hello4 (fun _ => 9)) rConn
              (splitInChunks hello4 3) (start plain_handler))
  = [EvWrite rConn [x16; x03; x01]%byte; EvWrite rConn [x00]%byte].
Proof.
  rewrite (proj1 (writeChunks_no_timing (calm hello4 (fun _ => 9)) rConn
                    (splitInChunks hello4 3) (start plain_handler) eq_refl)).
  reflexivity.
Defined.

(** ** [Serve], continued *)

Section MoreServeFacts.

Context {Regexp : Type} (env : World).

(** [writeChunks] only draws, sleeps and writes to its socket. *)
Lemma writeChunks_from_filter (p : event -> bool) (conn : conn) :
  (forall n, p (EvRand n) = false) ->
  (forall d, p (EvSleep d) = false) ->
  (forall data, p (EvWrite conn data) = false) ->
  forall (c : list (list byte)) (s : St Regexp) (i total : Z),
    filter p (trace_of (writeChunks_from env conn c i total s)) = [].
Proof.
  intros Hr Hs Hw c. induction c as [|ci c IH]; intros s i total;
    [reflexivity|].
  cbn [writeChunks_from]. rewrite !trace_bind, !filter_app. cbv beta.
  assert (Hpre : filter p
            (trace_of ((if 0 <? i then randomDelay env else ret tt) s)) = []).
  { destruct (0 <? i); [|reflexivity].
    unfold randomDelay. rewrite run_bind. cbn.
    destruct (TimingRandomization (config (hdl s))); [|reflexivity]. cbn.
    destruct (TimingDelayMax (config (hdl s)) <=? TimingDelayMin (config (hdl s)));
      [reflexivity|].
    cbn. now rewrite Hr, Hs. }
  rewrite Hpre.
  assert (Hwr : forall s0 : St Regexp,
            filter p (trace_of (Write env conn ci s0)) = [])
    by (intros s0; cbn; now rewrite Hw).
  rewrite Hwr.
  destruct (snd (value_of (Write env conn ci
             (state_of ((if 0 <? i then randomDelay env else ret tt) s)))));
    [reflexivity|].
  rewrite IH. reflexivity.
Qed.

Ltac fold_chunks :=
  repeat match goal with
  | |- context [snd (writeChunks env ?a ?b ?k)] =>
      change (snd (writeChunks env a b k))
        with (trace_of (writeChunks_from env a b 0 0 k))
  | |- context [trace_of (writeChunks env ?a ?b ?k)] =>
      change (trace_of (writeChunks env a b k))
        with (trace_of (writeChunks_from env a b 0 0 k))
  end.

(** X11. When the dial fails, [Serve] closes the client socket, once, and
    that is all it does to the sockets: nothing is written to the client,
    no record is read, no forwarder is started and the upstream socket is
    not touched. *)
Theorem Serve_dial_failure (req : HttpRequest) (ip : string) (s : St Regexp)
    (err : error) :
  dial_result env = Some err ->
  filter is_socket_op (trace_of (Serve env req ip s)) = [EvClose lConn]
  /\ existsb (is_go rConn lConn) (trace_of (Serve env req ip s)) = false
  /\ existsb (is_go lConn rConn) (trace_of (Serve env req ip s)) = false.
Proof.
  intros Hdial. unfold Serve, trace_of.
  run_cases; tidy; try congruence; repeat split.
Qed.

(** X12. When the dial succeeds but the 200 response cannot be written, or
    the record cannot be read or is no ClientHello, [Serve] returns having
    closed neither socket and started no forwarder, and without a write to
    the upstream socket: both sockets are left open with nothing to close
    them. *)
Theorem Serve_failure_leaves_sockets (req : HttpRequest) (ip : string)
    (s : St Regexp) :
  dial_result env = None ->
  write_result env (n_write s) <> None
  \/ (forall m, tls_result env = inl m -> IsClientHello m = false) ->
  let t := trace_of (Serve env req ip s) in
  close_calls lConn t = 0%nat /\ close_calls rConn t = 0%nat
  /\ existsb (is_go rConn lConn) t = false
  /\ existsb (is_go lConn rConn) t = false
  /\ writes_to rConn t = [].
Proof.
  intros Hdial Hfail. cbv zeta. unfold close_calls, Serve, trace_of.
  run_cases; tidy; try congruence; try (repeat split; reflexivity);
    exfalso; destruct Hfail as [Hw|Hh]; try congruence;
    match goal with
    | H : negb (IsClientHello ?m) = false |- _ =>
        rewrite (Hh m eq_refl) in H; discriminate H
    end.
Qed.

(** Once the dial has succeeded, [Serve] closes nothing on any path. *)
Lemma Serve_never_closes (req : HttpRequest) (ip : string) (s : St Regexp)
    (c : conn) :
  dial_result env = None ->
  close_calls c (trace_of (Serve env req ip s)) = 0%nat.
Proof.
  intros Hdial. unfold close_calls, Serve, trace_of.
  run_cases; tidy; try congruence; try reflexivity;
    fold_chunks; rewrite ?filter_app, writeChunks_from_filter;
    reflexivity.
Qed.


(** X14. With [Exploit] off, or with timing randomization off, a run of
    [Serve] draws no random number and never sleeps. *)
Theorem Serve_no_timing (req : HttpRequest) (ip : string) (s : St Regexp) :
  Exploit (config (hdl s)) = false
  \/ TimingRandomization (config (hdl s)) = false ->
  count is_sleep (trace_of (Serve env req ip s)) = 0%nat
  /\ count is_rand (trace_of (Serve env req ip s)) = 0%nat.
Proof.
  intros Hoff.
  assert (Hq : forall p (s0 : St Regexp) c,
    (forall data, p (EvWrite rConn data) = false) ->
    TimingRandomization (config (hdl s0)) = false ->
    filter p (trace_of (writeChunks_from env rConn c 0 0 s0)) = []).
  { intros p s0 c Hp Ht. rewrite writeChunks_from_quiet; [|now left].
    generalize (firstn (attempts (write_result env) (n_write s0) c) c).
    intros l. induction l as [|x l IH]; simpl; [reflexivity|].
    now rewrite Hp. }
  unfold count, Serve, trace_of.
  split; run_cases; try reflexivity;
    destruct Hoff as [Hoff|Hoff]; try congruence;
    fold_chunks; rewrite ?filter_app, Hq; auto.
Qed.

(** X15. The port outlives the call: after [Serve] has handled a request
    with a port, a request without a port on the same handler dials the
    port of the earlier request, not 443. *)
Theorem Serve_port_persists (req1 req2 : HttpRequest) (ip1 ip2 : string)
    (s : St Regexp) :
  Port req1 <> EmptyString ->
  Port req2 = EmptyString ->
  exists rest,
    trace_of (Serve env req2 ip2 (state_of (Serve env req1 ip1 s)))
    = EvDial ip2 (fst (Atoi (Port req1))) :: rest.
Proof.
  intros H1 H2.
  destruct (Serve_dials env req2 ip2 (state_of (Serve env req1 ip1 s)))
    as [rest E].
  exists rest. rewrite E, H2. cbn [String.eqb app].
  rewrite Serve_keeps_port.
  apply String.eqb_neq in H1. now rewrite H1.
Qed.

(** X16. Every run of [Serve] dials exactly once, also when the port does
    not parse, writes to the client at most once and reads at most one
    record from it. *)
Theorem Serve_single_dial (req : HttpRequest) (ip : string) (s : St Regexp) :
  let t := trace_of (Serve env req ip s) in
  count is_dial t = 1%nat
  /\ (count (is_write_to lConn) t <= 1)%nat
  /\ (count is_read_tls t <= 1)%nat.
Proof.
  cbv zeta. unfold count, Serve, trace_of.
  repeat split; run_cases; try reflexivity; try lia;
    fold_chunks; rewrite ?filter_app, writeChunks_from_filter;
    try reflexivity; simpl; lia.
Qed.

End MoreServeFacts.

Lemma Serve_dial_failure_witness :
  filter is_socket_op
    (trace_of (Serve refusing (connect_to "example.com" "443") upstream_ip
                 (start plain_handler)))
  = [EvClose lConn].
Proof.
  exact (proj1 (Serve_dial_failure refusing (connect_to "example.com" "443")
                  upstream_ip (start plain_handler) _ eq_refl)).
Defined.

Lemma Serve_failure_leaves_sockets_witness :
  let t := trace_of (Serve (failing_write hello4 0)
                       (connect_to "example.com" "443") upstream_ip
                       (start plain_handler)) in
  close_calls lConn t = 0%nat /\ close_calls rConn t = 0%nat.
Proof.
  cbv zeta.
  destruct (Serve_failure_leaves_sockets (failing_write hello4 0)
              (connect_to "example.com" "443") upstream_ip
              (start plain_handler) eq_refl
              (or_introl (fun H : Some "broken pipe"%string = None =>
                            eq_ind (Some "broken pipe"%string)
                              (fun o => match o with
                                        | Some _ => True
                                        | None => False
                                        end) I None H)))
    as (Hl & Hr & _).
  split; [exact Hl | exact Hr].
Defined.


Lemma Serve_no_timing_witness :
  count is_sleep
    (trace_of (Serve (calm hello12 (fun _ => 11))
                 (connect_to "example.com" "443") upstream_ip
                 (start plain_handler))) = 0%nat.
Proof.
  exact (proj1 (Serve_no_timing (calm hello12 (fun _ => 11))
                  (connect_to "example.com" "443") upstream_ip
                  (start plain_handler) (or_intror eq_refl))).
Defined.

Lemma Serve_port_persists_witness :
  exists rest,
    trace_of (Serve refusing (connect_to "example.org" EmptyString) upstream_ip
                (state_of (Serve refusing (connect_to "example.com" "8443")
                             upstream_ip (start plain_handler))))
    = EvDial upstream_ip 8443 :: rest.
Proof.
  apply (Serve_port_persists refusing (connect_to "example.com" "8443")
           (connect_to "example.org" EmptyString) upstream_ip upstream_ip
           (start plain_handler)).
  - discriminate.
  - reflexivity.
Defined.

(** ** [communicate], continued *)

Section MoreForwarderFacts.

Context {Regexp : Type} (env : World).

Lemma existsb_ext {A : Type} (f g : A -> bool) (l : list A) :
  (forall x, f x = g x) -> existsb f l = existsb g l.
Proof.
  intros H. induction l as [|x l IH]; simpl; [reflexivity|].
  now rewrite H, IH.
Qed.

Lemma existsb_seq_shift (f : nat -> bool) (a n : nat) :
  existsb f (seq (S a) n) = existsb (fun j => f (S j)) (seq a n).
Proof.
  revert a. induction n as [|n IH]; intros a; simpl; [reflexivity|].
  now rewrite IH.
Qed.

Lemma flat_map_const_seq {A : Type} (l : list A) (n a b : nat) :
  flat_map (fun _ => l) (seq a n) = flat_map (fun _ => l) (seq b n).
Proof.
  revert a b. induction n as [|n IH]; intros a b; simpl; [reflexivity|].
  f_equal. apply IH.
Qed.

(** The loop relays: what it writes to [to] is what it read from [from]. *)
Lemma communicate_loop_relays (from to : conn) (fuel : nat) :
  forall s : St Regexp,
  exists k,
    (k <= fuel)%nat
    /\ writes_to to (trace_of (communicate_loop env fuel from to s))
       = map (fun j => fst (read_result env j)) (seq (n_read s) k)
    /\ (forall j, (n_read s <= j < n_read s + k)%nat ->
                  snd (read_result env j) = None)
    /\ (k = fuel
        \/ snd (read_result env (n_read s + k)) <> None
        \/ exists k', k = S k' /\ write_result env (n_write s + k') <> None).
Proof.
  induction fuel as [|fuel IH]; intros s.
  - exists 0%nat. split; [lia|]. split; [reflexivity|].
    split; [intros j Hj; lia | now left].
  - unfold trace_of in *. cbn [communicate_loop].
    run_cases;
      try match goal with
          | H : conn_eqb ?c ?c = false |- _ =>
              rewrite conn_eqb_refl in H; discriminate H
          end;
      first
        [ match goal with
          | H : communicate_loop _ _ _ _ ?st = _ |- _ =>
              destruct (IH st) as (k & Hk & Ew & Hr & Hend); rewrite H in Ew;
              cbn in Ew, Hr, Hend; exists (S k); cbn [seq map]; rewrite Ew;
              split; [lia|]; split; [reflexivity|]; split;
                [ intros j Hj; destruct (Nat.eq_dec j (n_read s)) as [->|];
                    [assumption | apply Hr; lia]
                | rewrite Nat.add_succ_r;
                  destruct Hend as [->|[Hrd|(k' & -> & Hwr)]];
                    [ now left
                    | right; left; exact Hrd
                    | right; right; exists (S k'); split; [reflexivity|];
                      now rewrite Nat.add_succ_r ] ]
          end
        | match goal with
          | H : write_result env (n_write s) = Some _ |- _ =>
              exists 1%nat; split; [lia|]; split; [reflexivity|]; split;
                [ intros j Hj; assert (j = n_read s) as -> by lia; assumption
                | right; right; exists 0%nat; split; [reflexivity|];
                  rewrite Nat.add_0_r, H; discriminate ]
          end
        | match goal with
          | H : snd (read_result env (n_read s)) = Some _ |- _ =>
              exists 0%nat; split; [lia|]; split; [reflexivity|]; split;
                [ intros j Hj; lia
                | right; left; rewrite Nat.add_0_r, H; discriminate ]
          end ].
Qed.

(** X17. A forwarder relays faithfully: the payloads it writes to [to]
    are the payloads of its first [k] reads from [from], each of which
    succeeded, in the order they were read; none is written twice, dropped
    in between or reordered.  It stops there only because the next read
    failed or the last of these writes failed, unless it is still
    running. *)
Theorem communicate_relays (from to : conn) (fuel : nat) (s : St Regexp) :
  exists k,
    (k <= fuel)%nat
    /\ writes_to to (trace_of (communicate env fuel from to s))
       = map (fun j => fst (read_result env j)) (seq (n_read s) k)
    /\ (forall j, (n_read s <= j < n_read s + k)%nat ->
                  snd (read_result env j) = None)
    /\ (k = fuel
        \/ snd (read_result env (n_read s + k)) <> None
        \/ exists k', k = S k' /\ write_result env (n_write s + k') <> None).
Proof.
  destruct (communicate_loop_relays from to fuel s)
    as (k & Hk & Ew & Hr & Hend).
  exists k. split; [exact Hk|]. split; [|split; [exact Hr | exact Hend]].
  unfold communicate. rewrite trace_bind, writes_to_app, Ew. cbv beta.
  destruct (value_of (communicate_loop env fuel from to s)); cbn;
    now rewrite app_nil_r.
Qed.

Lemma communicate_loop_exit (from to : conn) (fuel : nat) :
  forall s : St Regexp,
    value_of (communicate_loop env fuel from to s)
    = existsb (fun j => is_err (snd (read_result env (j + n_read s)))
                        || is_err (write_result env (j + n_write s)))
              (seq 0 fuel).
Proof.
  induction fuel as [|fuel IH]; intros s; [reflexivity|].
  cbn [seq existsb]. rewrite existsb_seq_shift.
  unfold value_of in *. cbn [communicate_loop Nat.add].
  run_cases; try reflexivity;
    match goal with
    | H : communicate_loop _ _ _ _ ?st = _ |- _ =>
        specialize (IH st); rewrite H in IH; cbn in IH; rewrite IH;
        apply existsb_ext; intros j; now rewrite !Nat.add_succ_r
    end.
Qed.

(** X18. A forwarder leaves its loop exactly when a read or a write fails:
    within [fuel] iterations it has returned if and only if one of the
    first [fuel] reads or one of the first [fuel] writes fails.  A deadline
    that cannot be set is logged and changes nothing, and so long as reads
    and writes succeed the loop goes on. *)
Theorem communicate_exit (from to : conn) (fuel : nat) (s : St Regexp) :
  value_of (communicate env fuel from to s)
  = existsb (fun j => is_err (snd (read_result env (j + n_read s)))
                      || is_err (write_result env (j + n_write s)))
            (seq 0 fuel).
Proof.
  unfold communicate. rewrite value_bind, <- (communicate_loop_exit from to).
  cbv beta. now destruct (value_of (communicate_loop env fuel from to s)).
Qed.

(** X19. When a forwarder returns, the last things it does are to close
    [from], to close [to] and to log, in this order, and it has closed
    nothing before; while its loop runs it closes nothing at all. *)
Theorem communicate_closes_last (from to : conn) (fuel : nat) (s : St Regexp) :
  let t := trace_of (communicate env fuel from to s) in
  (value_of (communicate env fuel from to s) = true ->
   exists body,
     t = body ++ [EvClose from; EvClose to; EvLog LogClosing]
     /\ forall c, close_calls c body = 0%nat)
  /\ (value_of (communicate env fuel from to s) = false ->
      forall c, close_calls c t = 0%nat).
Proof.
  cbv zeta. unfold communicate. rewrite value_bind, trace_bind. cbv beta.
  pose proof (fun c => communicate_loop_no_close env fuel from to c s) as Hno.
  destruct (value_of (communicate_loop env fuel from to s)); split;
    try discriminate; intros _.
  - exists (trace_of (communicate_loop env fuel from to s)).
    split; [reflexivity | exact Hno].
  - intros c. cbn. rewrite app_nil_r. apply Hno.
Qed.

(** X20. A forwarder calls [setConnectionTimeout] on [from], with the
    timeout of the configuration, before every read and only then: its
    deadline calls and reads alternate, one of each per iteration. *)
Theorem communicate_deadlines (from to : conn) (fuel : nat) :
  forall s : St Regexp,
  exists k,
    (k <= fuel)%nat
    /\ filter is_deadline_or_read (trace_of (communicate env fuel from to s))
       = flat_map (fun _ => [EvSetTimeout from (Timeout (config (hdl s)));
                             EvRead from])
                  (seq 0 k).
Proof.
  assert (Hloop : forall (n : nat) (s : St Regexp), exists k,
    (k <= n)%nat
    /\ filter is_deadline_or_read (trace_of (communicate_loop env n from to s))
       = flat_map (fun _ => [EvSetTimeout from (Timeout (config (hdl s)));
                             EvRead from])
                  (seq 0 k)).
  { induction n as [|n IH]; intros s.
    - exists 0%nat. split; [lia | reflexivity].
    - unfold trace_of in *. cbn [communicate_loop].
      run_cases;
        try (exists 1%nat; split; [lia | reflexivity]);
        match goal with
        | H : communicate_loop _ _ _ _ ?st = _ |- _ =>
            destruct (IH st) as (k & Hk & Ef); rewrite H in Ef;
            cbn in Ef; exists (S k); split; [lia|];
            rewrite Ef; cbn [seq flat_map app]; do 2 f_equal;
            apply flat_map_const_seq
        end. }
  intros s. destruct (Hloop fuel s) as (k & Hk & Ef).
  exists k. split; [exact Hk|].
  unfold communicate. rewrite trace_bind, filter_app, Ef. cbv beta.
  destruct (value_of (communicate_loop env fuel from to s)); cbn;
    now rewrite app_nil_r.
Qed.

End MoreForwarderFacts.

Example communicate_relay_run :
  let r := communicate (feeding [[x17; x03]; [x15]; []]%byte) 10 lConn rConn
             (start plain_handler) in
  value_of r = true
  /\ writes_to rConn (trace_of r) = [[x17; x03]; [x15]; []]%byte
  /\ writes_to lConn (trace_of r) = []
  /\ count is_deadline_or_read (trace_of r) = 8%nat.
Proof. repeat split. Qed.

Lemma communicate_closes_last_witness :
  let r := communicate (closing_after 1) 5 rConn lConn (start plain_handler) in
  exists body,
    trace_of r = body ++ [EvClose rConn; EvClose lConn; EvLog LogClosing]
    /\ forall c, close_calls c body = 0%nat.
Proof.
  cbv zeta.
  exact (proj1 (communicate_closes_last (closing_after 1) rConn lConn 5
                  (start plain_handler)) eq_refl).
Defined.

(** ** From the command line to the configuration *)

Section PatternFlags.

Variable Regexp : Type.
Variable Compile : string -> option Regexp.

Lemma StringArray_Set_fold (values arr : list string) :
  fold_left (fun a v => fst (Util.StringArray_Set a v)) values arr
  = arr ++ values.
Proof.
  revert arr. induction values as [|v values IH]; intros arr; simpl.
  - now rewrite app_nil_r.
  - rewrite IH, <- app_assoc. reflexivity.
Qed.

(** X21. Patterns given one after the other through [StringArray.Set],
    which never fails, reach the configuration compiled and in the order
    they were given: when each of them compiles, [Load] returns and its
    [AllowedPatterns] are the compiled patterns, first to last. *)
Theorem Load_pattern_flags (c : Util.Config Regexp) (args : Util.Args)
    (values : list string) (rs : list Regexp) :
  Util.arg_AllowedPattern args
    = fold_left (fun a v => fst (Util.StringArray_Set a v)) values [] ->
  Forall2 (fun p r => Compile p = Some r) values rs ->
  (forall a v, snd (Util.StringArray_Set a v) = None)
  /\ snd (Util.Load Compile c args) = true
  /\ Util.AllowedPatterns (fst (Util.Load Compile c args)) = rs.
Proof.
  intros Hargs Hrs. rewrite StringArray_Set_fold in Hargs. simpl in Hargs.
  split; [reflexivity|].
  unfold Util.Load. rewrite Hargs.
  assert (E : Util.parseAllowedPattern Compile values = Some rs).
  { unfold Util.parseAllowedPattern.
    apply parseAllowedPattern_from_spec. now exists rs. }
  rewrite E.
  destruct (Util.loadTiming (Util.arg_RandomTiming args)) as [[en lo] hi].
  split; reflexivity.
Qed.

End PatternFlags.

Lemma Load_pattern_flags_witness :
  let args := sample_args {| Util.Value := EmptyString; Util.IsSet := false |} in
  Util.AllowedPatterns (fst (Util.Load compile_literal sample_config args))
  = ["example"%string].
Proof.
  cbv zeta.
  apply (@Load_pattern_flags string compile_literal sample_config
           (sample_args {| Util.Value := EmptyString; Util.IsSet := false |})
           ["example"%string] ["example"%string]).
  - reflexivity.
  - repeat constructor.
Defined.
